(** * dfply.transform: the column-transformation verbs

    A shallow embedding of [dfply/transform.py] ([mutate], [mutate_if],
    [mutate_all], [transmute]) over a small model of the pandas
    [DataFrame] operations the verbs call, followed by the properties
    of the verbs.

    A [DataFrame] is a mutable Python object: the model keeps the
    frames in a store addressed by references, so that "returns a new
    frame" and "assigns in place" are different things. *)

From Stdlib Require Import ZArith Lia.
From stdpp Require Import base list strings.

(** ** Python outcomes *)

(** The exceptions the verbs and the pandas operations raise themselves,
    and the ones a caller's function may raise; [KeyboardInterrupt] and
    [SystemExit] stand for the exceptions that do not derive from
    [Exception], which a bare [except:] catches all the same. *)
Inductive exn : Type :=
  | AttributeError
  | IndexError
  | KeyError (label : string)
  | ValueError
  | TypeError
  | KeyboardInterrupt
  | SystemExit
  | UserError (code : nat).

Inductive result (A : Type) : Type :=
  | Ok (a : A)
  | Raise (e : exn).
Arguments Ok {A} a.
Arguments Raise {A} e.

(** The exceptions an [except Exception:] catches. *)
Definition derives_from_Exception (e : exn) : bool :=
  match e with
  | KeyboardInterrupt | SystemExit => false
  | _ => true
  end.

#[global] Instance result_ret : MRet result := λ A a, Ok a.
#[global] Instance result_bind : MBind result := λ A B k r,
  match r with
  | Ok a => k a
  | Raise e => Raise e
  end.

(** [for x in l: acc = body(acc, x)], stopping at the first exception. *)
Fixpoint foldM {A B : Type} (body : A → B → result A) (l : list B) (acc : A)
  : result A :=
  match l with
  | [] => Ok acc
  | x :: l' => acc' ← body acc x; foldM body l' acc'
  end.

(** [[body(x) for x in l]], stopping at the first exception. *)
Fixpoint mapM_result {A B : Type} (body : A → result B) (l : list A)
  : result (list B) :=
  match l with
  | [] => Ok []
  | x :: l' => y ← body x; ys ← mapM_result body l'; Ok (y :: ys)
  end.

(** ** Insertion-ordered dictionaries

    A Python [dict] (and the columns of a [DataFrame] with unique
    labels): keys in insertion order; storing under a present key
    replaces the value and keeps the key's position, storing under an
    absent key appends. *)
Abbreviation odict V := (list (string * V)) (only parsing).

Section odict.
Context {V : Type}.

Definition keys (d : odict V) : list string := d.*1.

Fixpoint dict_get (d : odict V) (k : string) : option V :=
  match d with
  | [] => None
  | (k', v) :: d' => if decide (k' = k) then Some v else dict_get d' k
  end.

Fixpoint dict_set (d : odict V) (k : string) (v : V) : odict V :=
  match d with
  | [] => [(k, v)]
  | (k', v') :: d' =>
      if decide (k' = k) then (k', v) :: d' else (k', v') :: dict_set d' k v
  end.
End odict.

(** ** The pandas model *)

(** The columns of a frame, by label, in frame order. *)
Abbreviation table column := (odict column) (only parsing).

(** The frames of a program, by reference. *)
Abbreviation heap column := (list (table column)) (only parsing).

Section pandas.
Context {column : Type}.

(** [df[col]]: a [Series] knows the label it was taken under. *)
Record Series : Type := mkSeries { name : string; values : column }.

(** [df.columns] *)
Definition columns (T : table column) : list string := keys T.

(** [df[col]] for a single label; [KeyError] when it is absent. *)
Definition getitem (T : table column) (col : string) : result Series :=
  match dict_get T col with
  | Some c => Ok (mkSeries col c)
  | None => Raise (KeyError col)
  end.

(** [df[col] = value] on a frame value. *)
Definition setitem (T : table column) (col : string) (value : column) : table column :=
  dict_set T col value.

(** [df[cols]] for a list of labels: the named columns, in the order
    of the list. *)
Definition getitem_list (T : table column) (cols : list string) : result (table column) :=
  mapM_result (λ col, s ← getitem T col; Ok (col, values s)) cols.

(** A function of the caller's that [apply] is given: what it does on
    a column of the frame, and what it does on the empty, unnamed
    [Series([])] that pandas tries it on when the frame has no
    column. *)
Record callable : Type := mkCallable {
  call_on :> Series → result column;
  on_empty_series : result column
}.

(** [frame.apply(fun)], for a frame with rows and a [fun] that gives a
    column for a column: [fun] is called on each column in turn and the
    results are put together under the same labels. On a frame without
    columns pandas ([apply_empty_result]) calls [fun] once on
    [Series([])] inside [try: ... except Exception: pass], to see
    whether it reduces, and gives back a copy of the frame: an
    exception that is no [Exception] gets through. *)
Definition apply (fn : callable) (T : table column) : result (table column) :=
  match T with
  | [] =>
      match on_empty_series fn with
      | Ok _ => Ok []
      | Raise e => if derives_from_Exception e then Ok [] else Raise e
      end
  | _ :: _ => mapM_result (λ '(col, c), c' ← fn (mkSeries col c); Ok (col, c')) T
  end.

(** [df[cols] = value] with a frame on the right (pandas'
    [_setitem_array]): the lengths must agree, then
    [for k1, k2 in zip(cols, value.columns): df[k1] = value[k2]]. *)
Definition setitem_list (T : table column) (cols : list string) (value : table column)
  : result (table column) :=
  if decide (length (columns value) = length cols) then
    Ok (fold_left (λ acc '(k1, (_, c)), setitem acc k1 c) (zip cols value) T)
  else Raise ValueError.

(** [df.assign] with keyword arguments, on a frame value, the values being
    columns already: [for k, v in kwargs.items(): data[k] = v]. *)
Definition assign (T : table column) (kwargs : odict column) : table column :=
  fold_left (λ data '(k, v), setitem data k v) kwargs T.

(** [df.select(crit, axis=1)]: the columns whose label satisfies
    [crit], in frame order. *)
Definition select (crit : string → bool) (T : table column) : table column :=
  filter (λ kc, crit kc.1 = true) T.

(** [df.columns[i]] for a Python integer: negative positions count
    from the end, anything outside raises [IndexError]. *)
Definition index_getitem (labels : list string) (i : Z) : result string :=
  let n := Z.of_nat (length labels) in
  let j := if decide (i < 0)%Z then (i + n)%Z else i in
  if decide (0 ≤ j < n)%Z then
    match labels !! Z.to_nat j with
    | Some l => Ok l
    | None => Raise IndexError
    end
  else Raise IndexError.

(** *** Frames as objects *)

Definition ref : Type := nat.

(** A computation on the store that returns or raises. *)
Definition M (A : Type) : Type := heap column → heap column * result A.

Definition ret {A : Type} (a : A) : M A := λ h, (h, Ok a).
Definition bind {A B : Type} (m : M A) (k : A → M B) : M B := λ h,
  match m h with
  | (h', Ok a) => k a h'
  | (h', Raise e) => (h', Raise e)
  end.
Definition lift {A : Type} (r : result A) : M A := λ h, (h, r).

(** The frame a reference points to (a reference held by a Python
    program always points to one; a stray one reads as the empty
    frame). *)
Definition read (df : ref) : M (table column) := λ h, (h, Ok (h !!! df)).
Definition write (df : ref) (T : table column) : M unit := λ h, (<[df := T]> h, Ok tt).
Definition alloc (T : table column) : M ref := λ h, (h ++ [T], Ok (length h)).
End pandas.
Arguments Series column : clear implicits.
Arguments callable column : clear implicits.
Arguments M column A : clear implicits.

Declare Scope heap_scope.
Delimit Scope heap_scope with M.
Notation "x <- m ;; k" := (bind m (λ x, k))
  (at level 100, m at next level, right associativity) : heap_scope.
Notation "m ;;; k" := (bind m (λ _, k))
  (at level 100, right associativity) : heap_scope.

Section frames.
Context {column : Type}.
Local Open Scope heap_scope.

(** [df.assign] returns a copy of the frame with the columns
    assigned; the receiver is left alone. *)
Definition DataFrame_assign (df : ref) (kwargs : odict column) : M column ref :=
  T <- read df;;
  alloc (assign T kwargs).

(** [df.select(crit, axis=1)] returns a new frame. *)
Definition DataFrame_select (df : ref) (crit : string → bool) : M column ref :=
  T <- read df;;
  alloc (select crit T).

(** [df[cols] = value] assigns in place. *)
Definition DataFrame_setitem_list (df : ref) (cols : list string)
    (value : table column) : M column unit :=
  T <- read df;;
  T' <- lift (setitem_list T cols value);;
  write df T'.
End frames.

(** ** The collaborators from [dfply.base] *)

(** A possibly nested sequence of arguments. *)
#[warnings="-register-all"]
Inductive nested (A : Type) : Type :=
  | Leaf (a : A)
  | Seq (l : list (nested A)).
Arguments Leaf {A} a.
Arguments Seq {A} l.

(** Modelled from the spec: [flatten] of [dfply.base], which is not in
    this file; "given a tuple possibly containing nested sequences of
    column references, returns a single flat sequence preserving
    left-to-right, depth-first order". *)
Fixpoint flatten_element {A : Type} (el : nested A) : list A :=
  match el with
  | Leaf a => [a]
  | Seq l =>
      (fix go (l : list (nested A)) : list A :=
         match l with
         | [] => []
         | sub :: l' => flatten_element sub ++ go l'
         end) l
  end.

Definition flatten {A : Type} (l : list (nested A)) : list A :=
  flatten_element (Seq l).

(** What [transmute] asks of a keep-column argument: whether reading
    its [.name] attribute succeeds (and the label it gives), and
    whether the object is a [str], an [int] or neither. [PyInt] is an
    [int] proper: a [bool], which [isinstance] takes for an [int] but
    [df.columns[...]] does not take for a position, is not among the
    arguments modelled. *)
Inductive pykind : Type :=
  | PyStr (s : string)
  | PyInt (i : Z)
  | PyOther.

Record colref : Type := mkColref { dot_name : option string; kind : pykind }.

(** A function object handed to [mutate_all]: its [__name__], when it
    has one, and what calling it on a column does. *)
Record function (column : Type) : Type := mkFunction {
  __name__ : option string;
  call : Series column → result column
}.
Arguments mkFunction {column} _ _.
Arguments __name__ {column} f.
Arguments call {column} f s.

(** A keyword value of [mutate] and [transmute] as the caller writes
    it: a column, or an expression on the piped frame. *)
Inductive value (column : Type) : Type :=
  | Precomputed (c : column)
  | Expression (e : table column → result column).
Arguments Precomputed {column} c.
Arguments Expression {column} e.

Section verbs.
Context {column : Type}.
Local Open Scope heap_scope.

(** Modelled from the spec: the evaluation of symbolic arguments by
    the [dfpipe] decorator of [dfply.base], which is not in this
    file; "if it is an expression, evaluate it against [table]; if
    already a column, use as-is", the keywords taken left to right. *)
Definition evaluate (T : table column) (v : value column) : result column :=
  match v with
  | Precomputed c => Ok c
  | Expression e => e T
  end.

Definition evaluate_kwargs (T : table column) (kwargs : odict (value column))
  : result (odict column) :=
  mapM_result (λ '(k, v), c ← evaluate T v; Ok (k, c)) kwargs.

(** *** [mutate] *)

Definition mutate (df : ref) (kwargs : odict column) : M column ref :=
  DataFrame_assign df kwargs.

(** Modelled from the spec: [mutate] as decorated by [dfpipe], the
    verb a caller pipes a frame into. *)
Definition piped_mutate (df : ref) (kwargs : odict (value column)) : M column ref :=
  T <- read df;;
  evaluated <- lift (evaluate_kwargs T kwargs);;
  mutate df evaluated.

(** *** [mutate_if] *)

(** One turn of the loop [for col in df: try: ... except: pass]. *)
Definition mutate_if_step (T : table column) (predicate : Series column → result bool)
    (cols : list string) (col : string) : list string :=
  match s ← getitem T col; predicate s with
  | Ok true => cols ++ [col]
  | Ok false => cols
  | Raise _ => cols
  end.

(** The source's parameter [fun] is [fn] here. *)
Definition mutate_if (df : ref) (predicate : Series column → result bool)
    (fn : callable column) : M column ref :=
  T <- read df;;
  let cols := fold_left (mutate_if_step T predicate) (columns T) [] in
  sub <- lift (getitem_list T cols);;
  applied <- lift (apply fn sub);;
  DataFrame_setitem_list df cols applied;;;
  ret df.

(** *** [mutate_all] *)

(** The [__name__] attribute of a function object. *)
Definition getattr_name (f : function column) : result string :=
  match __name__ f with
  | Some n => Ok n
  | None => Raise AttributeError
  end.

(** One item [colname + '_' + f.__name__: f(df[colname])] of the dict
    comprehension, stored into the dict being built. *)
Definition mutate_all_item (T : table column) (colname : string)
    (assignments : odict column) (f : function column) : result (odict column) :=
  n ← getattr_name f;
  s ← getitem T colname;
  v ← call f s;
  Ok (dict_set assignments (colname +:+ "_" +:+ n) v).

Definition mutate_all (df : ref) (functions : list (function column)) : M column ref :=
  T <- read df;;
  assignments <- lift (foldM (λ acc colname,
                                foldM (mutate_all_item T colname) functions acc)
                             (columns T) []);;
  DataFrame_assign df assignments.

(** *** [transmute] *)

(** One turn of the loop over [flatten(keep_columns)]. *)
Definition transmute_keep (labels : list string) (keep_cols : list string)
    (col : colref) : result (list string) :=
  match dot_name col with
  | Some n => Ok (keep_cols ++ [n])
  | None =>
      match kind col with
      | PyStr s => Ok (keep_cols ++ [s])
      | PyInt i => l ← index_getitem labels i; Ok (keep_cols ++ [l])
      | PyOther => Ok keep_cols
      end
  end.

Definition transmute (df : ref) (keep_columns : list (nested colref))
    (kwargs : odict column) : M column ref :=
  T <- read df;;
  keep_cols <- lift (foldM (transmute_keep (columns T)) (flatten keep_columns) []);;
  df' <- DataFrame_assign df kwargs;;
  let columns := keys kwargs ++ keep_cols in
  DataFrame_select df' (λ x, bool_decide (x ∈ columns)).

(** Modelled from the spec: [transmute] as decorated by [dfpipe]. *)
Definition piped_transmute (df : ref) (keep_columns : list (nested colref))
    (kwargs : odict (value column)) : M column ref :=
  T <- read df;;
  evaluated <- lift (evaluate_kwargs T kwargs);;
  transmute df keep_columns evaluated.
End verbs.

(** ** What the verbs are said to compute

    The frames and columns the properties below are stated with. *)
Section described.
Context {column : Type}.

(** The columns of [T], each one named in [kwargs] holding the
    assigned content, the others their own. *)
Definition overwritten (T : table column) (kwargs : odict column) : table column :=
  (λ kc, (kc.1, default kc.2 (dict_get kwargs kc.1))) <$> T.

(** The assignments whose name is not a column of [T]. *)
Definition appended (T : table column) (kwargs : odict column) : odict column :=
  filter (λ kv, kv.1 ∉ columns T) kwargs.

(** [cols] are the assignments [kwargs], each value computed against [T]. *)
Definition evaluated_against (T : table column) (kwargs : odict (value column))
    (cols : odict column) : Prop :=
  Forall2 (λ kv kc, kc.1 = kv.1 ∧ evaluate T kv.2 = Ok kc.2) kwargs cols.

(** The predicate returns true on the column. *)
Definition chosen (predicate : Series column → result bool)
    (kc : string * column) : bool :=
  match predicate (mkSeries kc.1 kc.2) with
  | Ok true => true
  | _ => false
  end.

(** The columns the predicate selects, in frame order. *)
Definition selection (predicate : Series column → result bool)
    (T : table column) : table column :=
  filter (λ kc, chosen predicate kc = true) T.

(** [fun] does not get out of the trial on [Series([])]: it returns
    there, or raises an [Exception]. *)
Definition survives_probe (fn : callable column) : bool :=
  match on_empty_series fn with
  | Ok _ => true
  | Raise e => derives_from_Exception e
  end.

(** The predicate that answers false where [predicate] raises. *)
Definition quiet (predicate : Series column → result bool)
    (s : Series column) : result bool :=
  match predicate s with
  | Raise _ => Ok false
  | r => r
  end.

(** The derived column of [mutate_all] for a column and a function. *)
Definition derived_item (kc : string * column) (f : function column)
  : result (string * column) :=
  n ← getattr_name f;
  v ← call f (mkSeries kc.1 kc.2);
  Ok (kc.1 +:+ "_" +:+ n, v).

(** All of them: the columns of [T] in order, for each one the
    functions in order. *)
Definition derived_columns (T : table column) (functions : list (function column))
  : result (odict column) :=
  ll ← mapM_result (λ kc, mapM_result (derived_item kc) functions) T;
  Ok (mjoin (ll : list (list (string * column)))).


(** The labels the keep-column arguments resolve to. *)
Definition kept (T : table column) (keep_columns : list (nested colref))
  : result (list string) :=
  foldM (transmute_keep (columns T)) (flatten keep_columns) [].
End described.

(** ** A small frame to run the verbs on *)

Definition prices : table (list Z) :=
  [("carat", [23; 21]%Z); ("price", [326; 327]%Z)].

(** [X.price * 2], an expression on the piped frame. *)
Definition double_price : value (list Z) :=
  Expression (λ T, s ← getitem T "price"; Ok (map (Z.mul 2) (values s))).

Definition double : callable (list Z) :=
  mkCallable (λ s, Ok (map (Z.mul 2) (values s))) (Ok []).


Definition square : function (list Z) :=
  mkFunction (Some "square") (λ s, Ok (map (λ x, x * x)%Z (values s))).

Definition negative : function (list Z) :=
  mkFunction (Some "negative") (λ s, Ok (map Z.opp (values s))).

(** Raises on the carat column, true on the others. *)
Definition whole_numbers : Series (list Z) → result bool :=
  λ s, if decide (name s = "carat") then Raise TypeError else Ok true.

(** A frame one of whose labels is another label with a suffix. *)
Definition lettered : table (list Z) := [("a", [1]%Z); ("a_f", [5]%Z)].

Definition successor : function (list Z) :=
  mkFunction (Some "f") (λ s, Ok (map Z.succ (values s))).

Definition nameless : function (list Z) :=
  mkFunction None (λ s, Ok (values s)).

(** Closes a decidable goal on concrete data by evaluating it. *)
Ltac by_computation := apply (bool_decide_unpack _); vm_compute; exact I.

(** ** Dictionaries *)
Section dict_facts.
Context {V : Type}.
Implicit Types (d : odict V) (k : string) (v : V).

Lemma dict_get_None d k : dict_get d k = None ↔ k ∉ keys d.
Proof.
  induction d as [|[k' v'] d IH]; simpl.
  - split; [intros _; apply not_elem_of_nil | done].
  - rewrite not_elem_of_cons. case_decide as Hk.
    + split; [done | intros [Hne _]; by destruct Hne].
    + rewrite IH. split; [by intros ?; split; [congruence|] | by intros [_ ?]].
Qed.

Lemma dict_get_elem d k v : NoDup (keys d) → (k, v) ∈ d → dict_get d k = Some v.
Proof.
  induction d as [|[k' v'] d IH]; simpl; intros Hnd Hin.
  - by apply elem_of_nil in Hin.
  - apply NoDup_cons in Hnd as [Hk' Hnd].
    apply elem_of_cons in Hin as [Heq|Hin].
    + inversion Heq; subst. by rewrite decide_True.
    + case_decide as Hk; [|by apply IH]. subst k'.
      exfalso. apply Hk'. unfold keys.
      by apply (list_elem_of_fmap_2 fst d (k, v)).
Qed.

Lemma dict_set_absent d k v : k ∉ keys d → dict_set d k v = d ++ [(k, v)].
Proof.
  induction d as [|[k' v'] d IH]; simpl; [done|].
  rewrite not_elem_of_cons. intros [Hne Hk].
  rewrite decide_False by done. by rewrite IH.
Qed.

Lemma keys_dict_set_present d k v : k ∈ keys d → keys (dict_set d k v) = keys d.
Proof.
  induction d as [|[k' v'] d IH]; simpl; intros Hin.
  - by apply elem_of_nil in Hin.
  - case_decide as Hk; [done|]. simpl. f_equal. apply IH.
    apply elem_of_cons in Hin as [?|?]; [congruence | done].
Qed.

Lemma NoDup_keys_dict_set d k v : NoDup (keys d) → NoDup (keys (dict_set d k v)).
Proof.
  intros Hnd. destruct (decide (k ∈ keys d)) as [Hin|Hout].
  - by rewrite keys_dict_set_present.
  - rewrite dict_set_absent by done. unfold keys. rewrite fmap_app. simpl.
    apply NoDup_app. split; [done|]. split; [|apply NoDup_singleton].
    intros x Hx Hx'. apply list_elem_of_singleton in Hx'. by subst.
Qed.
End dict_facts.

(** ** [assign], column by column *)
Section assign_facts.
Context {column : Type}.
Implicit Types (T : table column) (kwargs : odict column).

Lemma overwritten_nil T : overwritten T [] = T.
Proof.
  unfold overwritten. simpl. rewrite <- (list_fmap_id T) at 2.
  apply list_fmap_ext. by intros i [k c] _.
Qed.

Lemma columns_overwritten T kwargs : columns (overwritten T kwargs) = columns T.
Proof.
  unfold columns, keys, overwritten. rewrite <- list_fmap_compose.
  by apply list_fmap_ext.
Qed.

Lemma overwritten_lookup T kwargs i kc :
  T !! i = Some kc →
  overwritten T kwargs !! i = Some (kc.1, default kc.2 (dict_get kwargs kc.1)).
Proof. intros Hi. unfold overwritten. by rewrite list_lookup_fmap, Hi. Qed.

Lemma overwritten_cons_absent T kwargs k v :
  k ∉ columns T → overwritten T ((k, v) :: kwargs) = overwritten T kwargs.
Proof.
  intros Hk. unfold overwritten. apply list_fmap_ext. intros i [k' c] Hi. simpl.
  rewrite decide_False; [done|]. intros ->. apply Hk.
  unfold columns, keys. apply (list_elem_of_fmap_2' fst T (k', c)); [|done].
  by eapply list_elem_of_lookup_2.
Qed.

Lemma overwritten_app T1 T2 kwargs :
  overwritten (T1 ++ T2) kwargs = overwritten T1 kwargs ++ overwritten T2 kwargs.
Proof. unfold overwritten. by rewrite fmap_app. Qed.

Lemma overwritten_dict_set T kwargs k v :
  NoDup (columns T) → k ∈ columns T → k ∉ keys kwargs →
  overwritten (dict_set T k v) kwargs = overwritten T ((k, v) :: kwargs).
Proof.
  induction T as [|[k' c] T IH]; simpl; intros Hnd Hin Hk.
  - by apply elem_of_nil in Hin.
  - apply NoDup_cons in Hnd as [Hk' Hnd]. case_decide as Hd.
    + subst k'. unfold overwritten at 1 2. simpl. rewrite decide_True by done.
      apply dict_get_None in Hk. rewrite Hk. simpl. f_equal.
      symmetry. by apply overwritten_cons_absent.
    + unfold overwritten at 1 2. simpl. rewrite decide_False by congruence.
      f_equal. apply IH; [done| |done].
      apply elem_of_cons in Hin as [?|?]; [congruence | done].
Qed.

Lemma appended_same_columns T T' kwargs :
  columns T' = columns T → appended T' kwargs = appended T kwargs.
Proof. intros Heq. unfold appended. by rewrite Heq. Qed.

Lemma appended_extended T kwargs k v :
  k ∉ keys kwargs → appended (T ++ [(k, v)]) kwargs = appended T kwargs.
Proof.
  intros Hk. unfold appended. induction kwargs as [|[k' v'] kwargs IH]; [done|].
  simpl in Hk. apply not_elem_of_cons in Hk as [Hne Hk].
  rewrite !filter_cons. simpl. rewrite IH by done.
  unfold columns, keys. rewrite fmap_app. simpl.
  destruct (decide (k' ∉ T.*1 ++ [k])) as [H1|H1];
    destruct (decide (k' ∉ T.*1)) as [H2|H2]; try done.
  - exfalso. apply H2. intros Hin. apply H1. apply elem_of_app. by left.
  - exfalso. apply H1. intros Hin. apply elem_of_app in Hin as [?|Hin]; [done|].
    apply list_elem_of_singleton in Hin. congruence.
Qed.

(** [assign] on a frame and a dict, both with distinct labels. *)
Lemma assign_described T kwargs :
  NoDup (columns T) → NoDup (keys kwargs) →
  assign T kwargs = overwritten T kwargs ++ appended T kwargs.
Proof.
  unfold assign, setitem. revert T.
  induction kwargs as [|[k v] kwargs IH]; intros T HT Hkw; simpl.
  - by rewrite overwritten_nil, app_nil_r.
  - change (NoDup (k :: keys kwargs)) in Hkw.
    apply NoDup_cons in Hkw as [Hk Hkw].
    rewrite IH; [|by apply NoDup_keys_dict_set | done].
    destruct (decide (k ∈ columns T)) as [Hin|Hout].
    + rewrite overwritten_dict_set by done.
      rewrite (appended_same_columns T) by by apply keys_dict_set_present.
      unfold appended at 2. rewrite filter_cons_False; [done|]. simpl. by intros ?.
    + rewrite dict_set_absent by done.
      rewrite overwritten_app, appended_extended by done.
      rewrite overwritten_cons_absent by done.
      unfold appended at 2. rewrite filter_cons_True by done.
      unfold overwritten at 2. simpl. apply dict_get_None in Hk. rewrite Hk. simpl.
      by rewrite <- app_assoc.
Qed.

Lemma assign_absent T kwargs :
  NoDup (keys kwargs) → (∀ k, k ∈ keys kwargs → k ∉ columns T) →
  assign T kwargs = T ++ kwargs.
Proof.
  unfold assign, setitem. revert T.
  induction kwargs as [|[k v] kwargs IH]; intros T Hkw Hout; simpl.
  - by rewrite app_nil_r.
  - change (NoDup (k :: keys kwargs)) in Hkw.
    apply NoDup_cons in Hkw as [Hk Hkw].
    rewrite dict_set_absent by (apply Hout; simpl; apply elem_of_cons; by left).
    rewrite IH; [by rewrite <- app_assoc | done |].
    intros k' Hk' Hin. unfold columns, keys in Hin. rewrite fmap_app in Hin.
    apply elem_of_app in Hin as [Hin|Hin].
    + apply (Hout k'); [simpl; apply elem_of_cons; by right | done].
    + apply list_elem_of_singleton in Hin. simpl in Hin. congruence.
Qed.
End assign_facts.

(** ** Running the verbs *)
Section runs.
Context {column : Type}.
Implicit Types (h : heap column) (T : table column) (df : ref).

Lemma read_run h df T : h !! df = Some T → read df h = (h, Ok T).
Proof. intros Hdf. unfold read. by rewrite (list_lookup_total_correct h df T). Qed.

Lemma evaluate_kwargs_Ok T (kwargs : odict (value column)) cols :
  evaluated_against T kwargs cols → evaluate_kwargs T kwargs = Ok cols.
Proof.
  unfold evaluate_kwargs. induction 1 as [|[k v] [k' c] kwargs cols [Hk Hv] _ IH];
    simpl in *; [done|].
  subst k'. rewrite Hv. simpl. by rewrite IH.
Qed.

Lemma evaluated_against_keys T (kwargs : odict (value column)) cols :
  evaluated_against T kwargs cols → keys cols = keys kwargs.
Proof.
  unfold keys. induction 1 as [|[k v] [k' c] kwargs cols [Hk Hv] _ IH]; [done|].
  rewrite !fmap_cons. simpl in Hk. by rewrite Hk, IH.
Qed.

Lemma DataFrame_assign_run h df T kwargs :
  h !! df = Some T →
  DataFrame_assign df kwargs h = (h ++ [assign T kwargs], Ok (length h)).
Proof. intros Hdf. unfold DataFrame_assign, bind. by rewrite (read_run h df T). Qed.

Lemma piped_mutate_run h df T kwargs cols :
  h !! df = Some T → evaluated_against T kwargs cols →
  piped_mutate df kwargs h = (h ++ [assign T cols], Ok (length h)).
Proof.
  intros Hdf Hev. unfold piped_mutate, mutate, bind, lift.
  rewrite (read_run h df T) by done.
  rewrite (evaluate_kwargs_Ok T kwargs cols) by done.
  by apply DataFrame_assign_run.
Qed.
End runs.

(** ** [mutate] *)
Section mutate_facts.
Context {column : Type}.
Implicit Types (h : heap column) (T : table column) (df : ref).

(** C1. [mutate] leaves the frame it is given as it was and returns a
    new frame: the columns of [T] in their order, each one named in
    the assignments holding the assigned content, followed by the
    assignments whose name is not a column of [T] in the order they
    were given; every value is computed against [T]. *)
Theorem mutate_returns_new_frame h df T (kwargs : odict (value column)) cols :
  h !! df = Some T →
  NoDup (columns T) →
  NoDup (keys kwargs) →
  evaluated_against T kwargs cols →
  let result := overwritten T cols ++ appended T cols in
  piped_mutate df kwargs h = (h ++ [result], Ok (length h))
  ∧ length h ≠ df
  ∧ (h ++ [result]) !! df = Some T
  ∧ (h ++ [result]) !! length h = Some result.
Proof.
  intros Hdf HT Hkw Hev result.
  assert (df < length h) as Hlt by by eapply lookup_lt_Some.
  split; [|split; [lia | split]].
  - rewrite (piped_mutate_run h df T kwargs cols) by done.
    rewrite assign_described; [done | done |].
    by rewrite (evaluated_against_keys T kwargs cols).
  - by rewrite lookup_app_l.
  - by rewrite list_lookup_middle.
Qed.
End mutate_facts.

Lemma mutate_returns_new_frame_witness :
  piped_mutate 0 [("carat2", Precomputed [46; 42]%Z); ("price", double_price)] [prices]
  = ([prices;
      [("carat", [23; 21]%Z); ("price", [652; 654]%Z); ("carat2", [46; 42]%Z)]],
     Ok 1).
Proof.
  apply (mutate_returns_new_frame [prices] 0 prices
           [("carat2", Precomputed [46; 42]%Z); ("price", double_price)]
           [("carat2", [46; 42]%Z); ("price", [652; 654]%Z)]).
  - reflexivity.
  - apply (bool_decide_unpack _). vm_compute. exact I.
  - apply (bool_decide_unpack _). vm_compute. exact I.
  - repeat constructor.
Defined.

(** ** [mutate_if] *)
Section mutate_if_facts.
Context {column : Type}.
Implicit Types (h : heap column) (T sub applied : table column) (df : ref).
Implicit Types (predicate : Series column → result bool).
Implicit Types (fn : callable column).

Lemma elem_of_keys T k c : (k, c) ∈ T → k ∈ keys T.
Proof. intros Hin. unfold keys. by apply (list_elem_of_fmap_2 fst T (k, c)). Qed.

Lemma NoDup_keys_functional T k c1 c2 :
  NoDup (keys T) → (k, c1) ∈ T → (k, c2) ∈ T → c1 = c2.
Proof.
  intros Hnd H1 H2. apply (dict_get_elem T k c1) in H1; [|done].
  apply (dict_get_elem T k c2) in H2; [|done]. congruence.
Qed.

Lemma getitem_present T k c :
  dict_get T k = Some c → getitem T k = Ok (mkSeries k c).
Proof. intros Hget. unfold getitem. by rewrite Hget. Qed.

Lemma selection_sublist predicate T : selection predicate T `sublist_of` T.
Proof. apply sublist_filter. Qed.

Lemma NoDup_keys_selection predicate T :
  NoDup (keys T) → NoDup (keys (selection predicate T)).
Proof.
  intros Hnd. eapply sublist_NoDup; [done|].
  unfold keys. apply fmap_sublist, selection_sublist.
Qed.

Lemma elem_of_selection predicate T kc :
  kc ∈ selection predicate T ↔ chosen predicate kc = true ∧ kc ∈ T.
Proof. unfold selection. by rewrite list_elem_of_filter. Qed.

(** The loop of [mutate_if] collects the labels of the selection. *)
Lemma mutate_if_loop predicate T sub cols :
  (∀ k c, (k, c) ∈ sub → dict_get T k = Some c) →
  fold_left (mutate_if_step T predicate) (keys sub) cols
  = cols ++ keys (selection predicate sub).
Proof.
  revert cols. induction sub as [|[k c] sub IH]; intros cols Hget.
  - simpl. by rewrite app_nil_r.
  - change (keys ((k, c) :: sub)) with (k :: keys sub). simpl.
    rewrite IH by (intros k' c' Hin; apply Hget; apply elem_of_cons; by right).
    unfold mutate_if_step.
    rewrite (getitem_present T k c) by (apply Hget, elem_of_cons; by left).
    simpl. unfold selection. rewrite filter_cons.
    assert (chosen predicate (k, c)
            = match predicate (mkSeries k c) with Ok true => true | _ => false end)
      as -> by done.
    destruct (predicate (mkSeries k c)) as [[|]|e]; simpl; [|done..].
    by rewrite <- app_assoc.
Qed.

Lemma getitem_list_sub T sub :
  (∀ k c, (k, c) ∈ sub → dict_get T k = Some c) →
  getitem_list T (keys sub) = Ok sub.
Proof.
  unfold getitem_list. induction sub as [|[k c] sub IH]; intros Hget; [done|].
  change (keys ((k, c) :: sub)) with (k :: keys sub). simpl.
  rewrite (getitem_present T k c) by (apply Hget, elem_of_cons; by left). simpl.
  rewrite IH; [done|]. intros k' c' Hin. apply Hget. apply elem_of_cons. by right.
Qed.

Lemma apply_cons fn kc sub :
  apply fn (kc :: sub)
  = mapM_result (λ '(col, c), c' ← fn (mkSeries col c); Ok (col, c')) (kc :: sub).
Proof. done. Qed.

Lemma apply_nil_survives fn : survives_probe fn = true → apply fn [] = Ok [].
Proof.
  unfold survives_probe, apply. destruct (on_empty_series fn) as [c|e]; [done|].
  by intros ->.
Qed.


Lemma mapM_columns_Ok fn sub applied :
  mapM_result (λ '(col, c), c' ← fn (mkSeries col c); Ok (col, c')) sub = Ok applied →
  Forall2 (λ kc kc', kc'.1 = kc.1 ∧ fn (mkSeries kc.1 kc.2) = Ok kc'.2) sub applied.
Proof.
  revert applied. induction sub as [|[k c] sub IH]; intros applied; simpl.
  - intros [= <-]. constructor.
  - destruct (fn (mkSeries k c)) as [c'|e] eqn:Hfn; simpl; [|done].
    destruct (mapM_result _ sub) as [rest|e]; simpl; [|done].
    intros [= <-]. constructor; [done | by apply IH].
Qed.

Lemma apply_Ok fn sub applied :
  apply fn sub = Ok applied →
  Forall2 (λ kc kc', kc'.1 = kc.1 ∧ fn (mkSeries kc.1 kc.2) = Ok kc'.2) sub applied.
Proof.
  destruct sub as [|kc sub]; [|rewrite apply_cons; apply mapM_columns_Ok].
  unfold apply. destruct (on_empty_series fn) as [c|e].
  - intros [= <-]. constructor.
  - destruct (derives_from_Exception e); [|done]. intros [= <-]. constructor.
Qed.

Lemma apply_succeeds fn sub :
  (∀ kc, kc ∈ sub → ∃ c', fn (mkSeries kc.1 kc.2) = Ok c') →
  (sub = [] → survives_probe fn = true) →
  ∃ applied, apply fn sub = Ok applied.
Proof.
  destruct sub as [|kc0 sub0].
  { intros _ Hprobe. exists []. by apply apply_nil_survives, Hprobe. }
  rewrite apply_cons. generalize (kc0 :: sub0). clear kc0 sub0. intros sub Hfn _.
  induction sub as [|[k c] sub IH]; simpl; [by eexists|].
  destruct (Hfn (k, c)) as [c' Hc']; [apply elem_of_cons; by left|].
  simpl in Hc'. rewrite Hc'. simpl.
  destruct IH as [rest Hrest]; [intros kc Hin; apply Hfn; apply elem_of_cons; by right|].
  rewrite Hrest. simpl. by eexists.
Qed.

Lemma apply_keys fn sub applied : apply fn sub = Ok applied → keys applied = keys sub.
Proof.
  intros Hap. apply apply_Ok in Hap. unfold keys.
  induction Hap as [|[k c] [k' c'] sub applied [Hk _] _ IH]; [done|].
  rewrite !fmap_cons. simpl in Hk. by rewrite Hk, IH.
Qed.

(** Storing a frame under its own labels is [assign]. *)
Lemma setitem_list_assign T applied :
  setitem_list T (keys applied) applied = Ok (assign T applied).
Proof.
  unfold setitem_list, columns. rewrite decide_True by done. f_equal.
  unfold assign. revert T. induction applied as [|[k c] applied IH]; intros T; [done|].
  change (keys ((k, c) :: applied)) with (k :: keys applied). simpl. apply IH.
Qed.

Lemma DataFrame_setitem_list_run h df T cols applied T' :
  h !! df = Some T → setitem_list T cols applied = Ok T' →
  DataFrame_setitem_list df cols applied h = (<[df := T']> h, Ok tt).
Proof.
  intros Hdf Hset. unfold DataFrame_setitem_list, bind, lift.
  by rewrite (read_run h df T), Hset.
Qed.

Lemma appended_nil T kwargs :
  (∀ k, k ∈ keys kwargs → k ∈ columns T) → appended T kwargs = [].
Proof.
  intros Hin. unfold appended. induction kwargs as [|[k v] kwargs IH]; [done|].
  rewrite filter_cons_False.
  - apply IH. intros k' Hk'. apply Hin. simpl. apply elem_of_cons. by right.
  - simpl. intros Hout. apply Hout, Hin. simpl. apply elem_of_cons. by left.
Qed.

(** What a run of [mutate_if] does, by the outcome of [fn] on the
    selection. *)
Lemma mutate_if_run h df T predicate fn :
  h !! df = Some T → NoDup (columns T) →
  mutate_if df predicate fn h =
    match apply fn (selection predicate T) with
    | Ok applied => (<[df := overwritten T applied]> h, Ok df)
    | Raise e => (h, Raise e)
    end.
Proof.
  intros Hdf Hnd. unfold mutate_if, bind at 1. rewrite (read_run h df T) by done.
  assert (∀ k c, (k, c) ∈ T → dict_get T k = Some c) as Hget
    by (intros k c Hin; by apply dict_get_elem).
  unfold columns. rewrite (mutate_if_loop predicate T T []) by done. simpl.
  unfold bind at 1, lift at 1. rewrite getitem_list_sub.
  2:{ intros k c Hin. apply Hget. by apply elem_of_selection in Hin as [_ ?]. }
  unfold bind at 1, lift at 1.
  destruct (apply fn (selection predicate T)) as [applied|e] eqn:Hap; [|done].
  unfold bind. rewrite <- (apply_keys _ _ _ Hap).
  rewrite (DataFrame_setitem_list_run h df T _ _ _ Hdf (setitem_list_assign T applied)).
  unfold ret. f_equal. f_equal.
  assert (NoDup (keys applied)) as Hnda.
  { rewrite (apply_keys _ _ _ Hap). by apply NoDup_keys_selection. }
  rewrite assign_described by done.
  rewrite appended_nil; [by rewrite app_nil_r|].
  intros k. rewrite (apply_keys _ _ _ Hap). unfold columns, keys. intros Hk.
  eapply elem_of_sublist; [done|]. apply fmap_sublist, selection_sublist.
Qed.

(** The columns of the frame [mutate_if] leaves, one by one. *)
Lemma overwritten_by_applied T predicate fn applied i kc :
  NoDup (columns T) → apply fn (selection predicate T) = Ok applied →
  T !! i = Some kc →
  if chosen predicate kc
  then ∃ c', fn (mkSeries kc.1 kc.2) = Ok c'
             ∧ overwritten T applied !! i = Some (kc.1, c')
  else overwritten T applied !! i = Some kc.
Proof.
  intros Hnd Hap Hi. rewrite (overwritten_lookup T applied i kc) by done.
  assert (kc ∈ T) as Hin by by eapply list_elem_of_lookup_2.
  assert (NoDup (keys applied)) as Hnda.
  { rewrite (apply_keys _ _ _ Hap). by apply NoDup_keys_selection. }
  destruct (chosen predicate kc) eqn:Hch.
  - assert (kc ∈ selection predicate T) as Hsel by by apply elem_of_selection.
    apply list_elem_of_lookup_1 in Hsel as [j Hj].
    destruct (Forall2_lookup_l _ _ _ j kc (apply_Ok _ _ _ Hap) Hj)
      as ([k' c'] & Hj' & Hk & Hfn).
    simpl in Hk, Hfn. subst k'. exists c'. split; [done|].
    rewrite (dict_get_elem applied kc.1 c'); [done | done |].
    by eapply list_elem_of_lookup_2.
  - assert (dict_get applied kc.1 = None) as ->; [|by destruct kc].
    apply dict_get_None. rewrite (apply_keys _ _ _ Hap). unfold keys.
    intros ([k2 c2] & Hk2 & Hsel)%list_elem_of_fmap_1. simpl in Hk2.
    apply elem_of_selection in Hsel as [Hch2 Hin2].
    destruct kc as [k c]. simpl in *. subst k2.
    assert (c = c2) as <- by by eapply (NoDup_keys_functional T k).
    congruence.
Qed.


Lemma mutate_if_step_quiet T predicate cols col :
  mutate_if_step T (quiet predicate) cols col = mutate_if_step T predicate cols col.
Proof.
  unfold mutate_if_step, quiet. destruct (getitem T col) as [s|e]; simpl; [|done].
  by destruct (predicate s) as [[|]|e].
Qed.

Lemma mutate_if_quiet df predicate fn h :
  mutate_if df (quiet predicate) fn h = mutate_if df predicate fn h.
Proof.
  unfold mutate_if, bind. destruct (read df h) as [h' [T|e]]; [|done].
  assert (∀ l cols, fold_left (mutate_if_step T (quiet predicate)) l cols
                    = fold_left (mutate_if_step T predicate) l cols) as ->; [|done].
  induction l as [|col l IH]; intros cols; simpl; [done|].
  by rewrite mutate_if_step_quiet, IH.
Qed.

(** C2. A column on which [predicate] raises, whatever it raises, is
    not selected: the run is the run with the predicate that answers
    false there, the exception reaches nobody, and the column is in the
    frame [mutate_if] leaves as it was; [mutate_if] returns when [fn]
    does on the selected columns (and, none being selected, on the
    empty [Series] it is tried on). *)
Theorem mutate_if_skips_where_predicate_raises h df T predicate fn i kc e :
  h !! df = Some T →
  NoDup (columns T) →
  T !! i = Some kc →
  predicate (mkSeries kc.1 kc.2) = Raise e →
  mutate_if df predicate fn h = mutate_if df (quiet predicate) fn h
  ∧ quiet predicate (mkSeries kc.1 kc.2) = Ok false
  ∧ (kc ∉ selection predicate T)
  ∧ ((∀ kc', kc' ∈ selection predicate T → ∃ c', fn (mkSeries kc'.1 kc'.2) = Ok c') →
     (selection predicate T = [] → survives_probe fn = true) →
     ∃ T', mutate_if df predicate fn h = (<[df := T']> h, Ok df)
           ∧ (<[df := T']> h) !! df = Some T'
           ∧ T' !! i = Some kc)
  ∧ (∀ h' r, mutate_if df predicate fn h = (h', Ok r) →
     ∃ T', h' !! r = Some T' ∧ T' !! i = Some kc).
Proof.
  intros Hdf Hnd Hi Hraise.
  assert (chosen predicate kc = false) as Hch by (unfold chosen; by rewrite Hraise).
  assert (df < length h) as Hlt by by eapply lookup_lt_Some.
  split; [by rewrite mutate_if_quiet|]. split; [unfold quiet; by rewrite Hraise|].
  split; [rewrite elem_of_selection; intros [? _]; congruence|].
  rewrite (mutate_if_run h df T) by done. split.
  - intros Hfn Hprobe. destruct (apply_succeeds fn _ Hfn Hprobe) as [applied Hap].
    rewrite Hap.
    exists (overwritten T applied). split; [done|].
    split; [by apply list_lookup_insert_eq|].
    pose proof (overwritten_by_applied T predicate fn applied i kc Hnd Hap Hi) as Hov.
    by rewrite Hch in Hov.
  - intros h' r. destruct (apply fn (selection predicate T)) as [applied|e'] eqn:Hap;
      [|done].
    intros [= <- <-]. exists (overwritten T applied).
    split; [by apply list_lookup_insert_eq|].
    pose proof (overwritten_by_applied T predicate fn applied i kc Hnd Hap Hi) as Hov.
    by rewrite Hch in Hov.
Qed.
End mutate_if_facts.

(** ** [mutate_all] *)
Section mutate_all_facts.
Context {column : Type}.
Implicit Types (h : heap column) (T sub : table column) (df : ref).
Implicit Types (f : function column) (functions : list (function column)).

(** Storing a list of items into a dict, one after the other. *)
Lemma mapM_result_Ok_lookup {A B : Type} (g : A → result B) l ys i x :
  mapM_result g l = Ok ys → l !! i = Some x → ∃ y, ys !! i = Some y ∧ g x = Ok y.
Proof.
  revert ys i. induction l as [|a l IH]; intros ys i; simpl; [by intros _ ?|].
  destruct (g a) as [b|e] eqn:Hg; simpl; [|done].
  destruct (mapM_result g l) as [bs|e]; simpl; [|done].
  intros [= <-]. destruct i as [|i]; simpl.
  - intros [= <-]. by exists b.
  - intros Hi. by apply IH.
Qed.

Lemma mapM_result_Ok_length {A B : Type} (g : A → result B) l ys :
  mapM_result g l = Ok ys → length ys = length l.
Proof.
  revert ys. induction l as [|a l IH]; intros ys; simpl; [by intros [= <-]|].
  destruct (g a) as [b|e]; simpl; [|done].
  destruct (mapM_result g l) as [bs|e]; simpl; [|done].
  intros [= <-]. simpl. by rewrite (IH bs).
Qed.

Lemma mapM_result_Raise {A B : Type} (g : A → result B) l e :
  mapM_result g l = Raise e → ∃ x, x ∈ l ∧ g x = Raise e.
Proof.
  induction l as [|a l IH]; simpl; [done|].
  destruct (g a) as [b|e'] eqn:Hg; simpl.
  - destruct (mapM_result g l) as [bs|e']; simpl; [done|].
    intros [= ->]. destruct IH as (x & Hx & Hgx); [done|].
    exists x. split; [apply elem_of_cons; by right | done].
  - intros [= ->]. exists a. split; [apply elem_of_cons; by left | done].
Qed.

Lemma mapM_result_fails {A B : Type} (g : A → result B) l x e :
  x ∈ l → g x = Raise e → ∃ e', mapM_result g l = Raise e'.
Proof.
  induction l as [|a l IH]; simpl; intros Hin Hg; [by apply elem_of_nil in Hin|].
  destruct (g a) as [b|e'] eqn:Hga; simpl; [|by eexists].
  apply elem_of_cons in Hin as [->|Hin]; [congruence|].
  destruct (IH Hin Hg) as [e' ->]. simpl. by eexists.
Qed.

Lemma foldM_cons {A B : Type} (body : A → B → result A) x l acc :
  foldM body (x :: l) acc = (acc' ← body acc x; foldM body l acc').
Proof. done. Qed.

Lemma mapM_result_cons {A B : Type} (g : A → result B) x l :
  mapM_result g (x :: l) = (y ← g x; ys ← mapM_result g l; Ok (y :: ys)).
Proof. done. Qed.

Lemma mutate_all_item_derived T k c (acc : odict column) f :
  dict_get T k = Some c →
  mutate_all_item T k acc f
  = (item ← derived_item (k, c) f; Ok (dict_set acc item.1 item.2)).
Proof.
  intros Hget. unfold mutate_all_item, derived_item. simpl.
  destruct (getattr_name f) as [n|e]; simpl; [|done].
  rewrite (getitem_present T k c) by done. simpl.
  by destruct (call f (mkSeries k c)).
Qed.

Lemma mapM_result_succeeds {A B : Type} (g : A → result B) l :
  (∀ x, x ∈ l → ∃ y, g x = Ok y) → ∃ ys, mapM_result g l = Ok ys.
Proof.
  induction l as [|a l IH]; intros Hg; [by eexists|].
  destruct (Hg a) as [b Hb]; [apply elem_of_cons; by left|].
  destruct IH as [bs Hbs]; [intros x Hx; apply Hg, elem_of_cons; by right|].
  rewrite mapM_result_cons, Hb. simpl. rewrite Hbs. by eexists.
Qed.

Lemma mapM_result_first_failure {A B : Type} (g : A → result B) l1 x l2 e :
  (∀ y, y ∈ l1 → ∃ b, g y = Ok b) → g x = Raise e →
  mapM_result g (l1 ++ x :: l2) = Raise e.
Proof.
  intros Hl1 Hx. induction l1 as [|a l1 IH].
  - simpl. by rewrite Hx.
  - destruct (Hl1 a) as [b Hb]; [apply elem_of_cons; by left|].
    rewrite <- app_comm_cons, mapM_result_cons, Hb. simpl.
    rewrite IH; [done|]. intros y Hy. apply Hl1, elem_of_cons. by right.
Qed.

(** The inner loop of the comprehension, for one column. *)
Lemma mutate_all_inner T k c functions (acc : odict column) :
  dict_get T k = Some c →
  foldM (mutate_all_item T k) functions acc
  = (items ← mapM_result (derived_item (k, c)) functions;
     Ok (fold_left (λ d '(k', v), dict_set d k' v) items acc)).
Proof.
  intros Hget. revert acc. induction functions as [|f functions IH]; intros acc; [done|].
  rewrite foldM_cons, mapM_result_cons, (mutate_all_item_derived T k c) by done.
  destruct (derived_item (k, c) f) as [[k' v]|e]; simpl; [|done].
  rewrite IH. by destruct (mapM_result _ functions).
Qed.

(** The comprehension builds the dict of the derived columns. *)
Lemma mutate_all_comprehension T sub functions (acc : odict column) :
  (∀ k c, (k, c) ∈ sub → dict_get T k = Some c) →
  foldM (λ acc colname, foldM (mutate_all_item T colname) functions acc) (keys sub) acc
  = (D ← derived_columns sub functions;
     Ok (fold_left (λ d '(k', v), dict_set d k' v) D acc)).
Proof.
  revert acc. induction sub as [|[k c] sub IH]; intros acc Hget; [done|].
  change (keys ((k, c) :: sub)) with (k :: keys sub).
  rewrite foldM_cons, (mutate_all_inner T k c) by (apply Hget, elem_of_cons; by left).
  unfold derived_columns. rewrite mapM_result_cons.
  destruct (mapM_result (derived_item (k, c)) functions) as [items|e]; simpl; [|done].
  rewrite IH by (intros k' c' Hin; apply Hget, elem_of_cons; by right).
  unfold derived_columns.
  destruct (mapM_result _ sub) as [ll|e]; simpl; [|done].
  by rewrite fold_left_app.
Qed.

Lemma mutate_all_run h df T functions :
  h !! df = Some T → NoDup (columns T) →
  mutate_all df functions h =
    match derived_columns T functions with
    | Ok D => (h ++ [assign T (assign [] D)], Ok (length h))
    | Raise e => (h, Raise e)
    end.
Proof.
  intros Hdf Hnd. unfold mutate_all, bind, lift. rewrite (read_run h df T) by done.
  unfold columns. rewrite (mutate_all_comprehension T T functions []).
  2:{ intros k c Hin. by apply dict_get_elem. }
  destruct (derived_columns T functions) as [D|e]; simpl; [|done].
  by rewrite (DataFrame_assign_run h df T).
Qed.

Lemma derived_columns_length T functions D :
  derived_columns T functions = Ok D → length D = length T * length functions.
Proof.
  unfold derived_columns.
  destruct (mapM_result _ T) as [ll|e] eqn:Hll; simpl; [|done]. intros [= <-].
  rewrite length_join, (sum_list_fmap_same (length functions)).
  - by rewrite (mapM_result_Ok_length _ _ _ Hll).
  - apply Forall_lookup. intros i l Hl.
    assert (i < length T) as Hi.
    { rewrite <- (mapM_result_Ok_length _ _ _ Hll). by eapply lookup_lt_Some. }
    apply lookup_lt_is_Some in Hi as [kc Hkc].
    destruct (mapM_result_Ok_lookup _ _ _ _ _ Hll Hkc) as (l' & Hl' & Hitems).
    assert (l' = l) as -> by congruence.
    by apply mapM_result_Ok_length in Hitems.
Qed.

(** The derived column of the [i]-th column and the [j]-th function
    is the one at place [i * length functions + j]. *)
Lemma derived_columns_lookup T functions D i j kc f :
  derived_columns T functions = Ok D → T !! i = Some kc → functions !! j = Some f →
  ∃ n v, __name__ f = Some n ∧ call f (mkSeries kc.1 kc.2) = Ok v
         ∧ D !! (i * length functions + j) = Some (kc.1 +:+ "_" +:+ n, v).
Proof.
  unfold derived_columns.
  destruct (mapM_result _ T) as [ll|e] eqn:Hll; simpl; [|done]. intros [= <-] Hi Hj.
  destruct (mapM_result_Ok_lookup _ _ _ _ _ Hll Hi) as (l & Hl & Hitems).
  destruct (mapM_result_Ok_lookup _ _ _ _ _ Hitems Hj) as (item & Hitem & Hf).
  unfold derived_item, getattr_name in Hf.
  destruct (__name__ f) as [n|]; simpl in Hf; [|done].
  destruct (call f (mkSeries kc.1 kc.2)) as [v|e]; simpl in Hf; [|done].
  injection Hf as <-. exists n, v. split; [done|]. split; [done|].
  apply (join_lookup_Some_same_length' (length functions)).
  - apply Forall_lookup. intros i' l' Hl'.
    assert (i' < length T) as Hi'.
    { rewrite <- (mapM_result_Ok_length _ _ _ Hll). by eapply lookup_lt_Some. }
    apply lookup_lt_is_Some in Hi' as [kc' Hkc'].
    destruct (mapM_result_Ok_lookup _ _ _ _ _ Hll Hkc') as (l'' & Hl'' & Hitems').
    assert (l'' = l') as -> by congruence.
    by apply mapM_result_Ok_length in Hitems'.
  - by eapply lookup_lt_Some.
  - by exists l.
Qed.

Lemma dict_of_distinct_items (D : odict column) : NoDup (keys D) → assign [] D = D.
Proof.
  intros Hnd. rewrite assign_absent; [done | done |].
  intros k _. apply not_elem_of_nil.
Qed.

(** C4, as amended. When the derived labels [c + '_' + f.__name__]
    are distinct from one another and from the labels of [T],
    [mutate_all] returns a new frame holding the columns of [T] as
    they are, in their order, followed by one derived column for each
    column and each function, the one for the [i]-th column and the
    [j]-th function at place [i * n + j] among them, under the label
    [c + '_' + f.__name__] and holding [f] of the column. *)
Theorem mutate_all_appends_derived_columns h df T functions D :
  h !! df = Some T →
  NoDup (columns T) →
  derived_columns T functions = Ok D →
  NoDup (keys D) →
  (∀ k, k ∈ keys D → k ∉ columns T) →
  mutate_all df functions h = (h ++ [T ++ D], Ok (length h))
  ∧ (h ++ [T ++ D]) !! df = Some T
  ∧ length D = length T * length functions
  ∧ ∀ i j kc f, T !! i = Some kc → functions !! j = Some f →
      ∃ n v, __name__ f = Some n ∧ call f (mkSeries kc.1 kc.2) = Ok v
             ∧ (T ++ D) !! (length T + (i * length functions + j))
               = Some (kc.1 +:+ "_" +:+ n, v).
Proof.
  intros Hdf HT HD Hnd Hout. rewrite (mutate_all_run h df T) by done. rewrite HD.
  rewrite dict_of_distinct_items, assign_absent by done.
  split; [done|]. split; [|split].
  - rewrite lookup_app_l; [done | by eapply lookup_lt_Some].
  - by apply derived_columns_length.
  - intros i j kc f Hi Hj.
    destruct (derived_columns_lookup T functions D i j kc f HD Hi Hj)
      as (n & v & Hn & Hv & Hlook).
    exists n, v. split; [done|]. split; [done|].
    rewrite lookup_app_r by lia. by replace (_ + _ - _) with (i * length functions + j) by lia.
Qed.

(** C8. Nothing is swallowed in [mutate_all]: when a function has no
    [__name__] or raises on a column, [mutate_all] raises, returns no
    frame and allocates none, and what it raises is the
    [AttributeError] of a function without a name or the exception a
    function raised on a column; it is the exception of the first
    failing pair, columns taken in order and, for each, the functions
    in order. *)
Theorem mutate_all_propagates_errors h df T functions kc f :
  h !! df = Some T →
  NoDup (columns T) →
  kc ∈ T →
  f ∈ functions →
  __name__ f = None ∨ (∃ e, call f (mkSeries kc.1 kc.2) = Raise e) →
  (∃ e, mutate_all df functions h = (h, Raise e)
        ∧ ∃ kc' f', kc' ∈ T ∧ f' ∈ functions
            ∧ ((__name__ f' = None ∧ e = AttributeError)
               ∨ call f' (mkSeries kc'.1 kc'.2) = Raise e))
  ∧ (∀ T1 T2 fs1 fs2 e0,
       T = T1 ++ kc :: T2 → functions = fs1 ++ f :: fs2 →
       (∀ kc' f', kc' ∈ T1 → f' ∈ functions → ∃ item, derived_item kc' f' = Ok item) →
       (∀ f', f' ∈ fs1 → ∃ item, derived_item kc f' = Ok item) →
       derived_item kc f = Raise e0 →
       mutate_all df functions h = (h, Raise e0)).
Proof.
  intros Hdf HT Hkc Hf Hfail. rewrite (mutate_all_run h df T) by done. split.
  - assert (∃ e0, derived_item kc f = Raise e0) as [e0 He0].
    { unfold derived_item, getattr_name. destruct Hfail as [->|[e He]]; [by eexists|].
      destruct (__name__ f); simpl; [rewrite He|]; by eexists. }
    destruct (mapM_result_fails (derived_item kc) functions f e0 Hf He0) as [e1 He1].
    destruct (mapM_result_fails (λ kc, mapM_result (derived_item kc) functions)
                T kc e1 Hkc He1) as [e He].
    unfold derived_columns. rewrite He. simpl. exists e. split; [done|].
    apply mapM_result_Raise in He as (kc' & Hkc' & He).
    apply mapM_result_Raise in He as (f' & Hf' & He).
    exists kc', f'. split; [done|]. split; [done|].
    unfold derived_item, getattr_name in He.
    destruct (__name__ f') as [n|]; simpl in He; [|left; split; congruence].
    right. destruct (call f' (mkSeries kc'.1 kc'.2)) as [v|e']; simpl in He; congruence.
  - intros T1 T2 fs1 fs2 e0 HT12 Hfs Hbefore Hbefore' He0.
    unfold derived_columns.
    rewrite HT12 at 1.
    rewrite (mapM_result_first_failure _ T1 kc T2 e0); [done| |].
    + intros kc' Hkc'. apply mapM_result_succeeds. intros f' Hf'. by apply Hbefore.
    + rewrite Hfs. by apply mapM_result_first_failure.
Qed.

(** C10. With no function, [mutate_all] returns a new frame equal to
    the one it is given: same labels, same order, same columns. *)
Theorem mutate_all_no_function h df T :
  h !! df = Some T →
  mutate_all df [] h = (h ++ [T], Ok (length h))
  ∧ (h ++ [T]) !! length h = Some T
  ∧ (h ++ [T]) !! df = Some T.
Proof.
  intros Hdf. split; [|split].
  - unfold mutate_all, bind, lift. rewrite (read_run h df T) by done.
    assert (∀ (l : list string) (acc : odict column),
              foldM (λ acc (colname : string),
                       foldM (mutate_all_item T colname) [] acc) l acc = Ok acc) as ->.
    { induction l as [|k l IH]; intros acc; [done|]. rewrite foldM_cons. simpl. apply IH. }
    by rewrite (DataFrame_assign_run h df T).
  - by rewrite list_lookup_middle.
  - rewrite lookup_app_l; [done | by eapply lookup_lt_Some].
Qed.
End mutate_all_facts.

(** ** [transmute] *)
Section transmute_facts.
Context {column : Type}.
Implicit Types (h : heap column) (T : table column) (df : ref).
Implicit Types (keep_columns : list (nested colref)) (keep_cols : list string).

Lemma flatten_cons {A : Type} (el : nested A) (l : list (nested A)) :
  flatten (el :: l) = flatten_element el ++ flatten l.
Proof. done. Qed.

Lemma flatten_app {A : Type} (l1 l2 : list (nested A)) :
  flatten (l1 ++ l2) = flatten l1 ++ flatten l2.
Proof.
  induction l1 as [|el l1 IH]; [done|].
  rewrite <- app_comm_cons, !flatten_cons, IH. by rewrite app_assoc.
Qed.

Lemma foldM_app {A B : Type} (body : A → B → result A) l1 l2 acc :
  foldM body (l1 ++ l2) acc = (acc' ← foldM body l1 acc; foldM body l2 acc').
Proof.
  revert acc. induction l1 as [|x l1 IH]; intros acc; [done|]. simpl.
  destruct (body acc x) as [acc'|e]; simpl; [apply IH | done].
Qed.

Lemma select_by_membership (l : list string) T :
  select (λ x, bool_decide (x ∈ l)) T = filter (λ kc, kc.1 ∈ l) T.
Proof.
  unfold select. apply list_filter_iff. intros [k c]. simpl.
  by rewrite bool_decide_eq_true.
Qed.

Lemma columns_filter (P : string → Prop) `{!∀ k, Decision (P k)} T :
  columns (filter (λ kc, P kc.1) T) = filter P (columns T).
Proof.
  unfold columns, keys. induction T as [|[k c] T IH]; [done|].
  rewrite fmap_cons, !filter_cons. simpl. destruct (decide (P k)); [|done].
  by rewrite fmap_cons, IH.
Qed.

Lemma columns_filter_member (l : list string) T :
  columns (filter (λ kc, kc.1 ∈ l) T) = filter (λ k, k ∈ l) (columns T).
Proof. exact (columns_filter (λ k, k ∈ l) T). Qed.

Lemma filter_all {A : Type} (P : A → Prop) `{!∀ x, Decision (P x)} (l : list A) :
  (∀ x, x ∈ l → P x) → filter P l = l.
Proof.
  induction l as [|x l IH]; intros HP; [done|].
  rewrite filter_cons_True by (apply HP, elem_of_cons; by left).
  f_equal. apply IH. intros y Hy. apply HP, elem_of_cons. by right.
Qed.

Lemma NoDup_columns_assign T (kwargs : odict column) :
  NoDup (columns T) → NoDup (columns (assign T kwargs)).
Proof.
  unfold assign, setitem. revert T.
  induction kwargs as [|[k v] kwargs IH]; intros T HT; [done|].
  simpl. apply IH. by apply NoDup_keys_dict_set.
Qed.

Lemma DataFrame_select_run h df T crit :
  h !! df = Some T →
  DataFrame_select df crit h = (h ++ [select crit T], Ok (length h)).
Proof. intros Hdf. unfold DataFrame_select, bind. by rewrite (read_run h df T). Qed.

(** What a run of [transmute] does, by the outcome of resolving the
    keep-column arguments. *)
Lemma transmute_run h df T keep_columns (kwargs : odict column) :
  h !! df = Some T →
  transmute df keep_columns kwargs h =
    match kept T keep_columns with
    | Ok keep_cols =>
        (h ++ [assign T kwargs;
               filter (λ kc, kc.1 ∈ keys kwargs ++ keep_cols) (assign T kwargs)],
         Ok (S (length h)))
    | Raise e => (h, Raise e)
    end.
Proof.
  intros Hdf. unfold transmute, bind at 1. rewrite (read_run h df T) by done.
  unfold bind at 1, lift, kept.
  destruct (foldM _ (flatten keep_columns) []) as [keep_cols|e]; [|done].
  unfold bind. rewrite (DataFrame_assign_run h df T) by done.
  rewrite (DataFrame_select_run _ _ (assign T kwargs)) by by rewrite list_lookup_middle.
  rewrite select_by_membership, length_app, <- app_assoc. simpl.
  by replace (length h + 1) with (S (length h)) by lia.
Qed.

Lemma piped_transmute_run h df T keep_columns (kwargs : odict (value column)) cols :
  h !! df = Some T → evaluated_against T kwargs cols →
  piped_transmute df keep_columns kwargs h =
    match kept T keep_columns with
    | Ok keep_cols =>
        (h ++ [assign T cols;
               filter (λ kc, kc.1 ∈ keys kwargs ++ keep_cols) (assign T cols)],
         Ok (S (length h)))
    | Raise e => (h, Raise e)
    end.
Proof.
  intros Hdf Hev. unfold piped_transmute, bind, lift.
  rewrite (read_run h df T) by done.
  rewrite (evaluate_kwargs_Ok T kwargs cols) by done.
  rewrite (transmute_run h df T) by done.
  by rewrite (evaluated_against_keys T kwargs cols).
Qed.

Lemma columns_assign T (kwargs : odict column) :
  NoDup (columns T) → NoDup (keys kwargs) →
  columns (assign T kwargs) = columns T ++ filter (λ k, k ∉ columns T) (keys kwargs).
Proof.
  intros HT Hkw. rewrite assign_described by done.
  unfold columns at 1, keys at 1. rewrite fmap_app.
  fold (keys (overwritten T kwargs)). fold (columns (overwritten T kwargs)).
  rewrite columns_overwritten. f_equal.
  unfold appended. exact (columns_filter (λ k, k ∉ columns T) kwargs).
Qed.

Lemma filter_none_named (l : list string) T :
  (∀ k, k ∈ l → k ∉ columns T) → filter (λ kc, kc.1 ∈ l) T = [].
Proof.
  induction T as [|[k c] T IH]; intros Hl; [done|].
  rewrite filter_cons_False.
  - apply IH. intros k' Hk' Hin. apply (Hl k' Hk'). apply elem_of_cons. by right.
  - simpl. intros Hk. apply (Hl k Hk). apply elem_of_cons. by left.
Qed.

Lemma filter_one_named T a x ca :
  NoDup (columns T) → dict_get T a = Some ca → x ∉ columns T →
  filter (λ kc, kc.1 ∈ [x; a]) T = [(a, ca)].
Proof.
  induction T as [|[k c] T IH]; intros Hnd Hget Hx; [done|].
  change (columns ((k, c) :: T)) with (k :: columns T) in *.
  apply NoDup_cons in Hnd as [Hk Hnd]. apply not_elem_of_cons in Hx as [Hxk Hx].
  simpl in Hget. destruct (decide (k = a)) as [->|Hne].
  - injection Hget as ->. rewrite filter_cons_True by (simpl; rewrite !elem_of_cons; auto).
    f_equal. apply filter_none_named. intros k'.
    rewrite !elem_of_cons, elem_of_nil. by intros [->|[->|[]]].
  - rewrite filter_cons_False; [by apply IH|]. simpl.
    rewrite !elem_of_cons, elem_of_nil. intros [?|[?|[]]]; congruence.
Qed.

(** C5, as amended. The frame [transmute] returns holds the columns
    of the frame after the assignments whose label is an assigned or a
    kept name, in the order of that frame: the columns of [T] that are
    kept or assigned to, in the order of [T], then the newly named
    columns in the order of the assignments, each label once. So
    [transmute(T, 'a', x=expr)], for a column [a] of [T] and a label
    [x] that [T] does not have, returns the two columns [a], as it is
    in [T], and [x], the expression on [T], in this order. *)
Theorem transmute_columns_in_frame_order h df T keep_columns
    (kwargs : odict (value column)) cols keep_cols :
  h !! df = Some T →
  NoDup (columns T) →
  NoDup (keys kwargs) →
  evaluated_against T kwargs cols →
  kept T keep_columns = Ok keep_cols →
  let after := overwritten T cols ++ appended T cols in
  let result := filter (λ kc, kc.1 ∈ keys kwargs ++ keep_cols) after in
  piped_transmute df keep_columns kwargs h = (h ++ [after; result], Ok (S (length h)))
  ∧ columns result
    = filter (λ k, k ∈ keys kwargs ++ keep_cols) (columns T)
      ++ filter (λ k, k ∉ columns T) (keys kwargs)
  ∧ NoDup (columns result)
  ∧ ∀ a x c ca,
      flatten keep_columns = [mkColref None (PyStr a)] → cols = [(x, c)] →
      dict_get T a = Some ca → x ∉ columns T →
      result = [(a, ca); (x, c)].
Proof.
  intros Hdf HT Hkw Hev Hkept after result.
  pose proof (evaluated_against_keys T kwargs cols Hev) as Hkeys.
  assert (NoDup (keys cols)) as Hcols by by rewrite Hkeys.
  assert (after = assign T cols) as Hafter by by rewrite assign_described.
  split; [|split; [|split]].
  - rewrite (piped_transmute_run h df T keep_columns kwargs cols) by done.
    by rewrite Hkept, <- Hafter.
  - unfold result. rewrite columns_filter_member.
    rewrite Hafter, columns_assign, filter_app, Hkeys by done. f_equal.
    apply filter_all. intros k Hk. apply list_elem_of_filter in Hk as [_ Hk].
    apply elem_of_app. by left.
  - unfold result. rewrite columns_filter_member.
    apply NoDup_filter. rewrite Hafter. by apply NoDup_columns_assign.
  - intros a x c ca Hflat -> Hget Hx. unfold kept in Hkept.
    rewrite Hflat in Hkept. injection Hkept as <-.
    unfold result, after. rewrite <- Hkeys.
    change (keys [(x, c)] ++ [a]) with [x; a].
    rewrite overwritten_cons_absent, overwritten_nil by done.
    unfold appended. rewrite filter_cons_True by done. rewrite filter_nil, filter_app.
    rewrite (filter_one_named T a x ca) by done.
    rewrite filter_cons_True by (simpl; rewrite !elem_of_cons; auto). done.
Qed.

(** C7, as amended. A keep-column name that is no column of the frame
    after the assignments raises nothing: [transmute] returns the
    columns whose label is an assigned or a kept name, and the absent
    name is not among them. *)
Theorem transmute_omits_absent_names h df T keep_columns
    (kwargs : odict (value column)) cols keep_cols s :
  h !! df = Some T →
  NoDup (columns T) →
  NoDup (keys kwargs) →
  evaluated_against T kwargs cols →
  kept T keep_columns = Ok keep_cols →
  s ∈ keep_cols →
  s ∉ columns T →
  s ∉ keys kwargs →
  let after := overwritten T cols ++ appended T cols in
  let result := filter (λ kc, kc.1 ∈ keys kwargs ++ keep_cols) after in
  piped_transmute df keep_columns kwargs h = (h ++ [after; result], Ok (S (length h)))
  ∧ (s ∉ columns after)
  ∧ (s ∉ columns result).
Proof.
  intros Hdf HT Hkw Hev Hkept Hs HsT Hskw after result.
  pose proof (evaluated_against_keys T kwargs cols Hev) as Hkeys.
  assert (NoDup (keys cols)) as Hcols by by rewrite Hkeys.
  assert (after = assign T cols) as Hafter by by rewrite assign_described.
  assert (s ∉ columns after) as Hout.
  { rewrite Hafter, columns_assign, Hkeys by done. intros Hin.
    apply elem_of_app in Hin as [Hin|Hin]; [done|].
    by apply list_elem_of_filter in Hin as [_ Hin]. }
  split; [|split; [done|]].
  - rewrite (piped_transmute_run h df T keep_columns kwargs cols) by done.
    by rewrite Hkept, <- Hafter.
  - unfold result. rewrite columns_filter_member.
    intros Hin. by apply list_elem_of_filter in Hin as [_ Hin].
Qed.




End transmute_facts.

(** ** [mutate], then the original columns again *)
Section mutate_select_facts.
Context {column : Type}.
Implicit Types (h : heap column) (T : table column) (df : ref).

Lemma overwritten_disjoint T (kwargs : odict column) :
  (∀ k, k ∈ keys kwargs → k ∉ columns T) → overwritten T kwargs = T.
Proof.
  intros Hdis. rewrite <- (overwritten_nil T) at 2. unfold overwritten.
  apply list_fmap_ext. intros i [k c] Hi. simpl.
  assert (dict_get kwargs k = None) as ->; [|done].
  apply dict_get_None. intros Hk. apply (Hdis k Hk).
  apply (elem_of_keys T k c). by eapply list_elem_of_lookup_2.
Qed.

(** C9, as amended. Selecting the labels of [T], in their order, from
    the frame [mutate] returns gives the columns of [T] with those
    named in the assignments holding the assigned content; it gives
    [T] again when no assignment is named like a column of [T]. *)
Theorem mutate_then_select_originals h df T (kwargs : odict (value column)) cols :
  h !! df = Some T →
  NoDup (columns T) →
  NoDup (keys kwargs) →
  evaluated_against T kwargs cols →
  ∃ T', piped_mutate df kwargs h = (h ++ [T'], Ok (length h))
        ∧ getitem_list T' (columns T) = Ok (overwritten T cols)
        ∧ ((∀ k, k ∈ keys kwargs → k ∉ columns T) →
           getitem_list T' (columns T) = Ok T).
Proof.
  intros Hdf HT Hkw Hev.
  pose proof (evaluated_against_keys T kwargs cols Hev) as Hkeys.
  assert (NoDup (keys cols)) as Hcols by by rewrite Hkeys.
  exists (assign T cols). split; [by apply piped_mutate_run|].
  assert (getitem_list (assign T cols) (columns T) = Ok (overwritten T cols)) as Hsel.
  { rewrite <- (columns_overwritten T cols). apply getitem_list_sub.
    intros k c Hin. apply dict_get_elem; [by apply NoDup_columns_assign|].
    rewrite assign_described by done. apply elem_of_app. by left. }
  split; [done|]. intros Hdis. rewrite Hsel. f_equal.
  apply overwritten_disjoint. intros k. rewrite Hkeys. apply Hdis.
Qed.
End mutate_select_facts.

(** ** The verbs on the small frame *)

Lemma mutate_if_skips_where_predicate_raises_witness :
  mutate_if 0 whole_numbers double [prices]
  = mutate_if 0 (quiet whole_numbers) double [prices].
Proof.
  apply (mutate_if_skips_where_predicate_raises [prices] 0 prices whole_numbers double
           0 ("carat", [23; 21]%Z) TypeError).
  - reflexivity.
  - by_computation.
  - reflexivity.
  - reflexivity.
Defined.



(** C4 as it was stated fails: the display name [f] is no label of the
    frame and is the only one, yet the derived label [a_f] is the label
    of a column of the frame, and that column is overwritten. *)
Lemma mutate_all_display_names_do_not_suffice :
  NoDup (__name__ <$> [successor])
  ∧ (∀ n, Some n ∈ (__name__ <$> [successor]) → n ∉ columns lettered)
  ∧ mutate_all 0 [successor] [lettered]
    = ([lettered; [("a", [1]%Z); ("a_f", [2]%Z); ("a_f_f", [6]%Z)]], Ok 1)
  ∧ ∀ D, [("a", [1]%Z); ("a_f", [2]%Z); ("a_f_f", [6]%Z)] ≠ lettered ++ D.
Proof.
  split; [apply NoDup_singleton|]. split; [|split].
  - intros n Hn. apply list_elem_of_singleton in Hn. injection Hn as ->. by_computation.
  - reflexivity.
  - intros D. unfold lettered. simpl. congruence.
Qed.

Lemma mutate_all_appends_derived_columns_witness :
  mutate_all 0 [square; negative] [prices]
  = ([prices;
      prices ++ [("carat_square", [529; 441]%Z); ("carat_negative", [-23; -21]%Z);
                 ("price_square", [106276; 106929]%Z); ("price_negative", [-326; -327]%Z)]],
     Ok 1).
Proof.
  apply (mutate_all_appends_derived_columns [prices] 0 prices [square; negative]
           [("carat_square", [529; 441]%Z); ("carat_negative", [-23; -21]%Z);
            ("price_square", [106276; 106929]%Z); ("price_negative", [-326; -327]%Z)]).
  - reflexivity.
  - by_computation.
  - reflexivity.
  - by_computation.
  - apply Forall_forall. by_computation.
Defined.

Lemma mutate_all_propagates_errors_witness :
  ∃ e, mutate_all 0 [square; nameless] [prices] = ([prices], Raise e)
       ∧ ∃ kc' f', kc' ∈ prices ∧ f' ∈ [square; nameless]
           ∧ ((__name__ f' = None ∧ e = AttributeError)
              ∨ call f' (mkSeries kc'.1 kc'.2) = Raise e).
Proof.
  apply (mutate_all_propagates_errors [prices] 0 prices [square; nameless]
           ("carat", [23; 21]%Z) nameless).
  - reflexivity.
  - by_computation.
  - constructor.
  - constructor. constructor.
  - left. reflexivity.
Defined.

Lemma mutate_all_no_function_witness :
  mutate_all 0 [] [prices] = ([prices; prices], Ok 1).
Proof. apply (mutate_all_no_function [prices] 0 prices). reflexivity. Defined.

(** C5 as it was stated fails: the kept column comes before the
    assigned one. *)
Lemma transmute_returns_kept_before_assigned :
  piped_transmute 0 [Leaf (mkColref None (PyStr "carat"))] [("x", double_price)] [prices]
  = ([prices;
      [("carat", [23; 21]%Z); ("price", [326; 327]%Z); ("x", [652; 654]%Z)];
      [("carat", [23; 21]%Z); ("x", [652; 654]%Z)]],
     Ok 2)
  ∧ columns [("carat", [23; 21]%Z); ("x", [652; 654]%Z)] ≠ ["x"; "carat"].
Proof. split; [reflexivity | discriminate]. Qed.

Lemma transmute_columns_in_frame_order_witness :
  piped_transmute 0 [Leaf (mkColref None (PyStr "carat"))] [("x", double_price)] [prices]
  = ([prices;
      [("carat", [23; 21]%Z); ("price", [326; 327]%Z); ("x", [652; 654]%Z)];
      [("carat", [23; 21]%Z); ("x", [652; 654]%Z)]],
     Ok 2).
Proof.
  apply (transmute_columns_in_frame_order [prices] 0 prices
           [Leaf (mkColref None (PyStr "carat"))] [("x", double_price)]
           [("x", [652; 654]%Z)] ["carat"]).
  - reflexivity.
  - by_computation.
  - by_computation.
  - repeat constructor.
  - reflexivity.
Defined.


(** C7 as it was stated fails: [depth] is no column of the frame, and
    [transmute] returns a frame all the same. *)
Lemma transmute_absent_name_raises_nothing :
  ("depth" ∉ columns [("carat", [23; 21]%Z); ("price", [326; 327]%Z); ("x", [652; 654]%Z)])
  ∧ kept prices [Leaf (mkColref None (PyStr "depth"))] = Ok ["depth"]
  ∧ piped_transmute 0 [Leaf (mkColref None (PyStr "depth"))] [("x", double_price)] [prices]
    = ([prices;
        [("carat", [23; 21]%Z); ("price", [326; 327]%Z); ("x", [652; 654]%Z)];
        [("x", [652; 654]%Z)]],
       Ok 2).
Proof. split; [by_computation | split; reflexivity]. Qed.

Lemma transmute_omits_absent_names_witness :
  piped_transmute 0 [Leaf (mkColref None (PyStr "depth"))] [("x", double_price)] [prices]
  = ([prices;
      [("carat", [23; 21]%Z); ("price", [326; 327]%Z); ("x", [652; 654]%Z)];
      [("x", [652; 654]%Z)]],
     Ok 2).
Proof.
  apply (transmute_omits_absent_names [prices] 0 prices
           [Leaf (mkColref None (PyStr "depth"))] [("x", double_price)]
           [("x", [652; 654]%Z)] ["depth"] "depth").
  - reflexivity.
  - by_computation.
  - by_computation.
  - repeat constructor.
  - reflexivity.
  - constructor.
  - by_computation.
  - by_computation.
Defined.

(** C9 as it was stated fails: an assignment named like a column of the
    frame replaces it, and selecting the original labels gives the new
    content. *)
Lemma mutate_then_select_gives_assigned_content :
  piped_mutate 0 [("price", Precomputed [0; 0]%Z)] [prices]
  = ([prices; [("carat", [23; 21]%Z); ("price", [0; 0]%Z)]], Ok 1)
  ∧ getitem_list [("carat", [23; 21]%Z); ("price", [0; 0]%Z)] (columns prices)
    = Ok [("carat", [23; 21]%Z); ("price", [0; 0]%Z)]
  ∧ [("carat", [23; 21]%Z); ("price", [0; 0]%Z)] ≠ prices.
Proof. split; [reflexivity | split; [reflexivity | discriminate]]. Qed.

Lemma mutate_then_select_originals_witness :
  ∃ T', piped_mutate 0 [("carat2", Precomputed [46; 42]%Z)] [prices] = ([prices; T'], Ok 1)
        ∧ getitem_list T' (columns prices) = Ok prices.
Proof.
  destruct (mutate_then_select_originals [prices] 0 prices
              [("carat2", Precomputed [46; 42]%Z)] [("carat2", [46; 42]%Z)])
    as (T' & Hrun & _ & Hsame).
  - reflexivity.
  - by_computation.
  - by_computation.
  - repeat constructor.
  - exists T'. split; [exact Hrun|]. apply Hsame. apply Forall_forall. by_computation.
Defined.

(** ** Further properties of the verbs *)

(** *** Labels and sizes under [assign] *)
Section assign_more.
Context {column : Type}.
Implicit Types (T : table column) (kwargs : odict column).

Lemma elem_of_keys_dict_set {V : Type} (d : odict V) k v k' :
  k' ∈ keys (dict_set d k v) ↔ k' ∈ keys d ∨ k' = k.
Proof.
  destruct (decide (k ∈ keys d)) as [Hin|Hout].
  - rewrite keys_dict_set_present by done. split; [by left|].
    intros [?| ->]; done.
  - rewrite dict_set_absent by done. unfold keys. rewrite fmap_app, elem_of_app.
    simpl. by rewrite list_elem_of_singleton.
Qed.

Lemma length_dict_set_le {V : Type} (d : odict V) k v :
  length (dict_set d k v) ≤ S (length d).
Proof. induction d as [|[k' v'] d IH]; simpl; [lia|]. case_decide; simpl; lia. Qed.

Lemma elem_of_columns_assign T kwargs k :
  k ∈ columns (assign T kwargs) ↔ k ∈ columns T ∨ k ∈ keys kwargs.
Proof.
  unfold assign, setitem, columns. revert T.
  induction kwargs as [|[k' v] kwargs IH]; intros T; simpl.
  - split; [by left|]. intros [?|Hin]; [done|]. by apply elem_of_nil in Hin.
  - rewrite IH, elem_of_keys_dict_set.
    change (keys ((k', v) :: kwargs)) with (k' :: keys kwargs).
    rewrite elem_of_cons. tauto.
Qed.

Lemma length_assign_le T kwargs : length (assign T kwargs) ≤ length T + length kwargs.
Proof.
  unfold assign, setitem. revert T.
  induction kwargs as [|[k v] kwargs IH]; intros T; simpl; [lia|].
  pose proof (IH (dict_set T k v)). pose proof (length_dict_set_le T k v). lia.
Qed.

Lemma assigned_in_assign T kwargs k v :
  NoDup (columns T) → NoDup (keys kwargs) → (k, v) ∈ kwargs → (k, v) ∈ assign T kwargs.
Proof.
  intros HT Hkw Hin. rewrite assign_described by done. apply elem_of_app.
  destruct (decide (k ∈ columns T)) as [HkT|HkT].
  - left. unfold columns, keys in HkT.
    apply list_elem_of_fmap_1 in HkT as ([k0 c] & -> & Hc).
    unfold overwritten. apply list_elem_of_fmap. exists (k0, c). split; [|done].
    simpl. by rewrite (dict_get_elem kwargs k0 v).
  - right. unfold appended. by apply list_elem_of_filter.
Qed.

Lemma untouched_in_assign T kwargs k c :
  k ∉ keys kwargs → (k, c) ∈ T → (k, c) ∈ assign T kwargs.
Proof.
  unfold assign, setitem. revert T.
  induction kwargs as [|[k' v] kwargs IH]; intros T Hk Hin; [done|].
  change (keys ((k', v) :: kwargs)) with (k' :: keys kwargs) in Hk.
  apply not_elem_of_cons in Hk as [Hne Hk]. simpl. apply IH; [done|].
  clear IH. induction T as [|[k0 c0] T IHT]; [by apply elem_of_nil in Hin|].
  simpl. apply elem_of_cons in Hin as [Heq|Hin].
  - injection Heq as <- <-. rewrite decide_False by done. apply elem_of_cons. by left.
  - case_decide; apply elem_of_cons; right; [done | by apply IHT].
Qed.
End assign_more.

(** *** [mutate], [mutate_all] and [transmute] on the store *)
Section store_more.
Context {column : Type}.
Implicit Types (h : heap column) (T : table column) (df : ref).

(** X1. [mutate], [mutate_all] and [transmute] change no frame that
    exists when they are called, whether they return or raise: every
    reference reads afterwards what it read before. *)
Theorem verbs_leave_existing_frames h df (kwargs : odict column)
    (functions : list (function column)) (keep_columns : list (nested colref)) r T0 :
  h !! r = Some T0 →
  (mutate df kwargs h).1 !! r = Some T0
  ∧ (mutate_all df functions h).1 !! r = Some T0
  ∧ (transmute df keep_columns kwargs h).1 !! r = Some T0.
Proof.
  intros Hr. split; [|split].
  - unfold mutate, DataFrame_assign, bind, read, alloc. simpl. by apply lookup_app_l_Some.
  - unfold mutate_all, DataFrame_assign, bind, read, lift, alloc.
    destruct (foldM _ (columns (h !!! df)) []) as [assignments|e]; simpl; [|done].
    by apply lookup_app_l_Some.
  - unfold transmute, DataFrame_assign, DataFrame_select, bind, read, lift, alloc.
    destruct (foldM _ (flatten keep_columns) []) as [keep_cols|e]; simpl; [|done].
    by do 2 apply lookup_app_l_Some.
Qed.
End store_more.

Lemma verbs_leave_existing_frames_witness :
  (transmute 0 [Leaf (mkColref None (PyInt 7))] [("x", [1; 2]%Z)] [prices]).1 !! 0
  = Some prices.
Proof.
  apply (verbs_leave_existing_frames [prices] 0 [("x", [1; 2]%Z)] []
           [Leaf (mkColref None (PyInt 7))] 0 prices).
  reflexivity.
Defined.

(** *** [mutate_if] on the store *)
Section mutate_if_more.
Context {column : Type}.
Implicit Types (h : heap column) (T sub : table column) (df : ref).
Implicit Types (predicate : Series column → result bool).
Implicit Types (fn : callable column).





(** X4. [mutate_if] works on the frame it is given: it returns the
    reference it got or raises, it allocates no frame, every other
    frame is as it was, and when it raises the frame itself is as it
    was. *)
Theorem mutate_if_in_place h df T predicate fn :
  h !! df = Some T →
  NoDup (columns T) →
  length (mutate_if df predicate fn h).1 = length h
  ∧ (∀ r, r ≠ df → (mutate_if df predicate fn h).1 !! r = h !! r)
  ∧ ((mutate_if df predicate fn h).2 = Ok df
     ∨ ∃ e, mutate_if df predicate fn h = (h, Raise e)).
Proof.
  intros Hdf Hnd. rewrite (mutate_if_run h df T) by done.
  destruct (apply fn (selection predicate T)) as [applied|e]; simpl.
  - split; [apply length_insert|]. split; [|by left].
    intros r Hr. by apply list_lookup_insert_ne.
  - split; [done|]. split; [done|]. right. by exists e.
Qed.


End mutate_if_more.


Lemma mutate_if_in_place_witness :
  length (mutate_if 0 whole_numbers double [prices; lettered]).1 = 2.
Proof.
  apply (mutate_if_in_place [prices; lettered] 0 prices whole_numbers double).
  - reflexivity.
  - by_computation.
Defined.



(** *** [mutate_all] whatever the labels *)
Section mutate_all_more.
Context {column : Type}.
Implicit Types (h : heap column) (T : table column) (df : ref).
Implicit Types (f g : function column) (functions : list (function column)).

Lemma elem_of_dict_set_inv {V : Type} (d : odict V) k v x :
  x ∈ dict_set d k v → x ∈ d ∨ x = (k, v).
Proof.
  induction d as [|[k' v'] d IH]; simpl.
  - intros Hx. apply list_elem_of_singleton in Hx. by right.
  - case_decide as Hk.
    + subst k'. rewrite !elem_of_cons. intros [->|Hx]; [by right | left; by right].
    + rewrite !elem_of_cons. intros [->|Hx]; [left; by left|].
      destruct (IH Hx) as [?|?]; [left; by right | by right].
Qed.

Lemma elem_of_assign_inv T (kwargs : odict column) x :
  x ∈ assign T kwargs → x ∈ T ∨ x ∈ kwargs.
Proof.
  unfold assign, setitem. revert T.
  induction kwargs as [|[k v] kwargs IH]; intros T; simpl; [by left|].
  intros Hx. destruct (IH _ Hx) as [Hx'|Hx']; [|right; apply elem_of_cons; by right].
  destruct (elem_of_dict_set_inv T k v x Hx') as [?| ->]; [by left|].
  right. apply elem_of_cons. by left.
Qed.

(** X7. Whatever the derived labels are, also when some are the same or
    are labels of [T], the frame [mutate_all] returns has distinct
    labels, begins with the labels of [T] in their order, has the
    labels of [T] and the derived labels and no other, has at most one
    column more for each column and function, and every column in it is
    a column of [T] or [f] of a column of [T] under its derived label. *)
Theorem mutate_all_keeps_labels h df T functions D :
  h !! df = Some T →
  NoDup (columns T) →
  derived_columns T functions = Ok D →
  ∃ T', mutate_all df functions h = (h ++ [T'], Ok (length h))
        ∧ NoDup (columns T')
        ∧ columns T `prefix_of` columns T'
        ∧ (∀ k, k ∈ columns T' ↔ k ∈ columns T ∨ k ∈ keys D)
        ∧ (∀ kc, kc ∈ T' → kc ∈ T ∨ kc ∈ D)
        ∧ length T' ≤ length T + length T * length functions.
Proof.
  intros Hdf HT HD. rewrite (mutate_all_run h df T) by done. rewrite HD.
  exists (assign T (assign [] D)). split; [done|].
  assert (NoDup (keys (assign [] D))) as Hnd by (apply (NoDup_columns_assign [] D), NoDup_nil_2).
  split; [by apply NoDup_columns_assign|]. split; [|split; [|split]].
  - rewrite columns_assign by done. by eexists.
  - intros k. rewrite elem_of_columns_assign.
    change (keys (assign [] D)) with (columns (assign [] D)).
    rewrite elem_of_columns_assign. unfold columns at 2. simpl. rewrite elem_of_nil. tauto.
  - intros kc Hkc. apply elem_of_assign_inv in Hkc as [?|Hkc]; [by left|].
    apply elem_of_assign_inv in Hkc as [Hkc|?]; [by apply elem_of_nil in Hkc | by right].
  - pose proof (length_assign_le T (assign [] D)).
    pose proof (length_assign_le [] D).
    rewrite <- (derived_columns_length T functions D) by done. simpl in *. lia.
Qed.

Lemma derived_columns_cons kc T functions :
  derived_columns (kc :: T) functions
  = (items ← mapM_result (derived_item kc) functions;
     rest ← derived_columns T functions;
     Ok (items ++ rest)).
Proof.
  unfold derived_columns. rewrite mapM_result_cons.
  destruct (mapM_result (derived_item kc) functions) as [items|e]; simpl; [|done].
  by destruct (mapM_result _ T).
Qed.

Lemma dict_set_last {V : Type} (d : odict V) k v v' :
  k ∉ keys d → dict_set (d ++ [(k, v)]) k v' = d ++ [(k, v')].
Proof.
  induction d as [|[k0 v0] d IH]; simpl; intros Hk.
  - by rewrite decide_True.
  - change (keys ((k0, v0) :: d)) with (k0 :: keys d) in Hk.
    apply not_elem_of_cons in Hk as [Hne Hk].
    rewrite decide_False by done. by rewrite IH.
Qed.

(** The items of two functions of one name, stored one after the
    other: what the second function gives stays. *)
Lemma same_name_items f g T :
  __name__ f = __name__ g →
  ∀ Df Dg (acc : odict column),
    derived_columns T [f] = Ok Df → derived_columns T [g] = Ok Dg →
    NoDup (keys acc ++ keys Dg) →
    ∃ D, derived_columns T [f; g] = Ok D ∧ assign acc D = acc ++ Dg.
Proof.
  intros Hname. induction T as [|kc T IH]; intros Df Dg acc Hf Hg Hnd.
  - injection Hg as <-. exists []. split; [done|]. by rewrite app_nil_r.
  - rewrite derived_columns_cons in Hf, Hg. rewrite derived_columns_cons.
    rewrite !mapM_result_cons in *. simpl in *.
    unfold derived_item, getattr_name in *. rewrite Hname in *.
    destruct (__name__ g) as [n|]; simpl in *; [|done].
    destruct (call f (mkSeries kc.1 kc.2)) as [vf|e]; simpl in *; [|done].
    destruct (call g (mkSeries kc.1 kc.2)) as [vg|e]; simpl in *; [|done].
    destruct (derived_columns T [f]) as [Df'|e] eqn:HDf; simpl in *; [|done].
    destruct (derived_columns T [g]) as [Dg'|e] eqn:HDg; simpl in *; [|done].
    injection Hg as <-.
    change (keys ((kc.1 +:+ "_" +:+ n, vg) :: Dg'))
      with ((kc.1 +:+ "_" +:+ n) :: keys Dg') in Hnd.
    assert (kc.1 +:+ "_" +:+ n ∉ keys acc) as Hfresh.
    { apply NoDup_app in Hnd as (_ & Hdis & _). intros Hin.
      apply (Hdis _ Hin). apply elem_of_cons. by left. }
    destruct (IH Df' Dg' (acc ++ [(kc.1 +:+ "_" +:+ n, vg)]) eq_refl eq_refl) as (D & HD & Hassign).
    { unfold keys at 1. rewrite fmap_app. fold (keys acc). simpl.
      by rewrite <- app_assoc. }
    rewrite HD. simpl. eexists. split; [done|].
    unfold assign, setitem in *. simpl.
    rewrite (dict_set_absent acc), dict_set_last by done.
    rewrite Hassign. by rewrite <- app_assoc.
Qed.

(** X8. Two functions of the same [__name__]: the column of the second
    takes the place of the column of the first, so that, the first one
    raising nowhere, [mutate_all] with both does what it does with the
    second alone. *)
Theorem mutate_all_same_name_last_wins h df T f g Df Dg :
  h !! df = Some T →
  NoDup (columns T) →
  __name__ f = __name__ g →
  derived_columns T [f] = Ok Df →
  derived_columns T [g] = Ok Dg →
  NoDup (keys Dg) →
  mutate_all df [f; g] h = mutate_all df [g] h
  ∧ mutate_all df [g] h = (h ++ [assign T Dg], Ok (length h)).
Proof.
  intros Hdf HT Hname Hf Hg Hnd. rewrite !(mutate_all_run h df T) by done.
  destruct (same_name_items f g T Hname Df Dg [] Hf Hg Hnd) as (D & HD & Hassign).
  rewrite HD, Hg, Hassign. simpl. by rewrite dict_of_distinct_items.
Qed.

(** X9. On a frame without columns [mutate_all] calls no function and
    reads no [__name__]: it returns a new frame without columns,
    whatever the functions are. *)
Theorem mutate_all_no_column h df functions :
  h !! df = Some [] →
  mutate_all df functions h = (h ++ [[]], Ok (length h)).
Proof.
  intros Hdf. unfold mutate_all, bind, lift. rewrite (read_run h df []) by done.
  simpl. by rewrite (DataFrame_assign_run h df []).
Qed.
End mutate_all_more.

Lemma mutate_all_keeps_labels_witness :
  ∃ T', mutate_all 0 [successor] [lettered] = ([lettered; T'], Ok 1)
        ∧ NoDup (columns T')
        ∧ columns lettered `prefix_of` columns T'.
Proof.
  destruct (mutate_all_keeps_labels [lettered] 0 lettered [successor]
              [("a_f", [2]%Z); ("a_f_f", [6]%Z)])
    as (T' & Hrun & Hnd & Hprefix & _).
  - reflexivity.
  - by_computation.
  - reflexivity.
  - exists T'. split; [exact Hrun | split; [exact Hnd | exact Hprefix]].
Defined.

Lemma mutate_all_same_name_last_wins_witness :
  mutate_all 0 [mkFunction (Some "square") (call negative); square] [prices]
  = mutate_all 0 [square] [prices].
Proof.
  apply (mutate_all_same_name_last_wins [prices] 0 prices
           (mkFunction (Some "square") (call negative)) square
           [("carat_square", [-23; -21]%Z); ("price_square", [-326; -327]%Z)]
           [("carat_square", [529; 441]%Z); ("price_square", [106276; 106929]%Z)]).
  - reflexivity.
  - by_computation.
  - reflexivity.
  - reflexivity.
  - reflexivity.
  - by_computation.
Defined.

Lemma mutate_all_no_column_witness :
  mutate_all 0 [nameless] [[]] = ([[]; []], Ok 1).
Proof. apply (mutate_all_no_column [[]] 0 [nameless]). reflexivity. Defined.

(** *** [transmute]: positions, kept names and what is returned *)
Section transmute_more.
Context {column : Type}.
Implicit Types (h : heap column) (T : table column) (df : ref).
Implicit Types (keep_columns : list (nested colref)) (keep_cols : list string).

Lemma kept_app_cons T ks1 col ks2 keep1 :
  kept T ks1 = Ok keep1 →
  kept T (ks1 ++ Leaf col :: ks2)
  = (keep_cols ← transmute_keep (columns T) keep1 col;
     foldM (transmute_keep (columns T)) (flatten ks2) keep_cols).
Proof.
  unfold kept. intros Hks1. rewrite flatten_app, flatten_cons.
  change (flatten_element (Leaf col) ++ flatten ks2) with (col :: flatten ks2).
  by rewrite foldM_app, Hks1.
Qed.

(** X10. An integer keep-column outside the positions of the frame,
    from minus the number of columns to that number less one, makes
    [transmute] raise [IndexError], whatever the assignments are (the
    position is looked up before they are made), and no frame is
    allocated. *)
Theorem transmute_position_out_of_range h df T ks1 ks2 col i (kwargs : odict column) keep1 :
  h !! df = Some T →
  kept T ks1 = Ok keep1 →
  dot_name col = None →
  kind col = PyInt i →
  (i < - Z.of_nat (length T) ∨ Z.of_nat (length T) ≤ i)%Z →
  transmute df (ks1 ++ Leaf col :: ks2) kwargs h = (h, Raise IndexError).
Proof.
  intros Hdf Hks1 Hname Hkind Hout. rewrite (transmute_run h df T) by done.
  rewrite (kept_app_cons T ks1 col ks2 keep1) by done.
  assert (transmute_keep (columns T) keep1 col = Raise IndexError) as ->; [|done].
  unfold transmute_keep. rewrite Hname, Hkind. unfold index_getitem. cbv zeta.
  assert (length (columns T) = length T) as -> by (unfold columns, keys; apply length_fmap).
  destruct (decide (i < 0)%Z).
  - destruct (decide (0 ≤ i + Z.of_nat (length T) < Z.of_nat (length T))%Z); [lia | done].
  - destruct (decide (0 ≤ i < Z.of_nat (length T))%Z); [lia | done].
Qed.

Lemma transmute_keep_negative T keep_cols col k kc :
  dot_name col = None →
  kind col = PyInt (- Z.of_nat (S k)) →
  S k ≤ length T →
  T !! (length T - S k) = Some kc →
  transmute_keep (columns T) keep_cols col = Ok (keep_cols ++ [kc.1]).
Proof.
  intros Hname Hkind Hk Hkc. unfold transmute_keep. rewrite Hname, Hkind.
  unfold index_getitem. cbv zeta.
  assert (length (columns T) = length T) as -> by (unfold columns, keys; apply length_fmap).
  destruct (decide (- Z.of_nat (S k) < 0)%Z); [|lia].
  destruct (decide (0 ≤ - Z.of_nat (S k) + Z.of_nat (length T) < Z.of_nat (length T))%Z);
    [|lia].
  replace (Z.to_nat (- Z.of_nat (S k) + Z.of_nat (length T))) with (length T - S k) by lia.
  unfold columns, keys. by rewrite list_lookup_fmap, Hkc.
Qed.

Lemma filter_the_named T kc :
  NoDup (columns T) → kc ∈ T → filter (λ kc', kc'.1 ∈ [kc.1]) T = [kc].
Proof.
  induction T as [|[k0 c0] T IH]; intros Hnd Hin; [by apply elem_of_nil in Hin|].
  change (columns ((k0, c0) :: T)) with (k0 :: columns T) in Hnd.
  apply NoDup_cons in Hnd as [Hk0 Hnd]. apply elem_of_cons in Hin as [->|Hin].
  - rewrite filter_cons_True by (simpl; by apply list_elem_of_singleton).
    f_equal. apply filter_none_named. intros k Hk. apply list_elem_of_singleton in Hk.
    by subst k.
  - rewrite filter_cons_False; [by apply IH|]. simpl. intros Hk0'.
    apply list_elem_of_singleton in Hk0'. subst k0. apply Hk0.
    destruct kc as [k c]. by apply (elem_of_keys T k c).
Qed.

(** X11. A negative integer keep-column counts from the last column:
    [transmute] with minus one alone returns the frame of the last
    column, with minus the number of columns the frame of the first. *)
Theorem transmute_negative_position h df T col k kc :
  h !! df = Some T →
  NoDup (columns T) →
  dot_name col = None →
  kind col = PyInt (- Z.of_nat (S k)) →
  S k ≤ length T →
  T !! (length T - S k) = Some kc →
  transmute df [Leaf col] [] h = (h ++ [T; [kc]], Ok (S (length h))).
Proof.
  intros Hdf Hnd Hname Hkind Hk Hkc. rewrite (transmute_run h df T) by done.
  unfold kept. change (flatten [Leaf col]) with [col]. rewrite foldM_cons.
  rewrite (transmute_keep_negative T [] col k kc) by done. simpl.
  rewrite filter_the_named; [done | done |]. by eapply list_elem_of_lookup_2.
Qed.

(** X12. What [transmute] returns: a label is in the frame exactly when
    it is assigned, or kept and a label of [T]; every assigned column
    is there with the content assigned, and every kept column of [T]
    that is not assigned to is there as it is in [T]. *)
Theorem transmute_returns_assigned_and_kept h df T keep_columns (kwargs : odict column)
    keep_cols :
  h !! df = Some T →
  NoDup (columns T) →
  NoDup (keys kwargs) →
  kept T keep_columns = Ok keep_cols →
  ∃ after result,
    transmute df keep_columns kwargs h = (h ++ [after; result], Ok (S (length h)))
    ∧ (∀ k, k ∈ columns result ↔ k ∈ keys kwargs ∨ (k ∈ keep_cols ∧ k ∈ columns T))
    ∧ (∀ k v, (k, v) ∈ kwargs → (k, v) ∈ result)
    ∧ (∀ k c, k ∈ keep_cols → k ∉ keys kwargs → (k, c) ∈ T → (k, c) ∈ result).
Proof.
  intros Hdf HT Hkw Hkept. rewrite (transmute_run h df T) by done. rewrite Hkept.
  eexists _, _. split; [done|]. split; [|split].
  - intros k. rewrite columns_filter_member, list_elem_of_filter, elem_of_app.
    rewrite elem_of_columns_assign. tauto.
  - intros k v Hin. apply list_elem_of_filter. split; [|by apply assigned_in_assign].
    simpl. apply elem_of_app. left. by apply (elem_of_keys kwargs k v).
  - intros k c Hk Hout Hin. apply list_elem_of_filter.
    split; [|by apply untouched_in_assign]. simpl. apply elem_of_app. by right.
Qed.

(** X13. Only which names are kept counts, not their order nor how
    often they are given: keep-columns that resolve to the same names
    give the same run. *)
Theorem transmute_keep_order_irrelevant h df T ks1 ks2 (kwargs : odict column) l1 l2 :
  h !! df = Some T →
  kept T ks1 = Ok l1 →
  kept T ks2 = Ok l2 →
  (∀ k, k ∈ l1 ↔ k ∈ l2) →
  transmute df ks1 kwargs h = transmute df ks2 kwargs h.
Proof.
  intros Hdf H1 H2 Hsame. rewrite !(transmute_run h df T) by done. rewrite H1, H2.
  do 4 f_equal. apply list_filter_iff. intros [k c]. simpl.
  rewrite !elem_of_app, Hsame. tauto.
Qed.

(** X14. [transmute] keeping every column of [T] returns the frame
    [mutate] returns. *)
Theorem transmute_keeping_all_is_mutate h df T keep_columns (kwargs : odict column)
    keep_cols :
  h !! df = Some T →
  kept T keep_columns = Ok keep_cols →
  (∀ k, k ∈ columns T → k ∈ keep_cols) →
  ∃ T', mutate df kwargs h = (h ++ [T'], Ok (length h))
        ∧ transmute df keep_columns kwargs h = (h ++ [T'; T'], Ok (S (length h))).
Proof.
  intros Hdf Hkept Hall. exists (assign T kwargs).
  split; [by apply DataFrame_assign_run|].
  rewrite (transmute_run h df T) by done. rewrite Hkept. do 4 f_equal.
  apply filter_all. intros [k c] Hin. simpl. apply elem_of_app.
  assert (k ∈ columns (assign T kwargs)) as Hk by by apply (elem_of_keys _ k c).
  apply elem_of_columns_assign in Hk as [?|?]; [right; by apply Hall | by left].
Qed.

(** X15. Without assignments, and with no kept name that is a label of
    [T] (so with no keep-column at all), [transmute] returns a frame
    without columns. *)
Theorem transmute_nothing_kept h df T keep_columns keep_cols :
  h !! df = Some T →
  kept T keep_columns = Ok keep_cols →
  (∀ k, k ∈ keep_cols → k ∉ columns T) →
  transmute df keep_columns [] h = (h ++ [T; []], Ok (S (length h))).
Proof.
  intros Hdf Hkept Hnone. rewrite (transmute_run h df T) by done. rewrite Hkept.
  simpl. by rewrite filter_none_named.
Qed.
End transmute_more.

Lemma transmute_position_out_of_range_witness :
  transmute 0 [Leaf (mkColref None (PyStr "carat")); Leaf (mkColref None (PyInt 2))]
    [("x", [1; 2]%Z)] [prices]
  = ([prices], Raise IndexError).
Proof.
  apply (transmute_position_out_of_range [prices] 0 prices
           [Leaf (mkColref None (PyStr "carat"))] [] (mkColref None (PyInt 2)) 2
           [("x", [1; 2]%Z)] ["carat"]).
  - reflexivity.
  - reflexivity.
  - reflexivity.
  - reflexivity.
  - right. simpl. lia.
Defined.

Lemma transmute_negative_position_witness :
  transmute 0 [Leaf (mkColref None (PyInt (-1)))] [] [prices]
  = ([prices; prices; [("price", [326; 327]%Z)]], Ok 2).
Proof.
  apply (transmute_negative_position [prices] 0 prices (mkColref None (PyInt (-1))) 0
           ("price", [326; 327]%Z)).
  - reflexivity.
  - by_computation.
  - reflexivity.
  - reflexivity.
  - simpl. lia.
  - reflexivity.
Defined.

Lemma transmute_returns_assigned_and_kept_witness :
  ∃ after result,
    transmute 0 [Leaf (mkColref None (PyStr "carat"))] [("x", [1; 2]%Z)] [prices]
    = ([prices; after; result], Ok 2)
    ∧ ("x", [1; 2]%Z) ∈ result.
Proof.
  destruct (transmute_returns_assigned_and_kept [prices] 0 prices
              [Leaf (mkColref None (PyStr "carat"))] [("x", [1; 2]%Z)] ["carat"])
    as (after & result & Hrun & _ & Hassigned & _).
  - reflexivity.
  - by_computation.
  - by_computation.
  - reflexivity.
  - exists after, result. split; [exact Hrun|]. apply Hassigned. constructor.
Defined.

Lemma transmute_keep_order_irrelevant_witness :
  transmute 0 [Leaf (mkColref None (PyStr "price")); Leaf (mkColref None (PyInt 0))] []
    [prices]
  = transmute 0 [Seq [Leaf (mkColref (Some "carat") PyOther);
                      Leaf (mkColref None (PyStr "price"));
                      Leaf (mkColref None (PyStr "carat"))]] [] [prices].
Proof.
  apply (transmute_keep_order_irrelevant [prices] 0 prices _ _ []
           ["price"; "carat"] ["carat"; "price"; "carat"]).
  - reflexivity.
  - reflexivity.
  - reflexivity.
  - intros k. rewrite !elem_of_cons, !elem_of_nil. tauto.
Defined.

Lemma transmute_keeping_all_is_mutate_witness :
  ∃ T', mutate 0 [("x", [1; 2]%Z)] [prices] = ([prices; T'], Ok 1)
        ∧ transmute 0 [Leaf (mkColref None (PyInt 0)); Leaf (mkColref None (PyInt 1))]
            [("x", [1; 2]%Z)] [prices]
          = ([prices; T'; T'], Ok 2).
Proof.
  apply (transmute_keeping_all_is_mutate [prices] 0 prices
           [Leaf (mkColref None (PyInt 0)); Leaf (mkColref None (PyInt 1))]
           [("x", [1; 2]%Z)] ["carat"; "price"]).
  - reflexivity.
  - reflexivity.
  - apply Forall_forall. by_computation.
Defined.

Lemma transmute_nothing_kept_witness :
  transmute 0 [Leaf (mkColref None (PyStr "depth"))] [] [prices]
  = ([prices; prices; []], Ok 2).
Proof.
  apply (transmute_nothing_kept [prices] 0 prices
           [Leaf (mkColref None (PyStr "depth"))] ["depth"]).
  - reflexivity.
  - reflexivity.
  - apply Forall_forall. by_computation.
Defined.
